(** * twosheds.completer: a shallow embedding of the completion engine

    The development follows [twosheds/completer.py]; the command reader
    and loop of [twosheds/cli.py] and the [rewrite] and [complete] methods
    of [twosheds/twosheds.py] come after it.  Python values are modelled
    as follows:

    - [str] is [string] (the code base is Python 2: a [str] is a byte
      string);
    - a call either returns or raises: [outcome];
    - a generator, once consumed to its end, has yielded a finite sequence
      of values and then either stopped or raised: [generator];
    - the operating system ([os.listdir], [os.path.isdir], [os.environ]) and
      the regular-expression engine ([re]) are interfaces the completer is
      parameterised by. *)

From Stdlib Require Import String Ascii List ZArith Bool Lia.
Import ListNotations.

Local Open Scope string_scope.
Local Open Scope list_scope.

Set Implicit Arguments.

(* ================================================================= *)
(** ** Python run-time values *)

Module Py.

(** The exceptions the completer can meet.  [Exception name] stands for
    any other exception class (raised by an extension or a transform). *)
Inductive exn : Set :=
| OSError
| re_error
| IndexError
| TypeError
| Exception (name : string).

Definition is_IndexError (e : exn) : bool :=
  match e with IndexError => true | _ => false end.

(** The result of a call. *)
Inductive outcome (A : Type) : Type :=
| Returned (a : A)
| Raised (e : exn).
Arguments Raised {A} e.

Definition bind {A B} (o : outcome A) (k : A -> outcome B) : outcome B :=
  match o with
  | Returned a => k a
  | Raised e => Raised e
  end.

(** What a generator does when it is iterated to its end. *)
Inductive generator (A : Type) : Type :=
| Stop
| Yield (a : A) (rest : generator A)
| Raise (e : exn).
Arguments Stop {A}.
Arguments Raise {A} e.

(** [for x in l: yield x] *)
Fixpoint yield_all {A} (l : list A) : generator A :=
  match l with
  | [] => Stop
  | a :: l' => Yield a (yield_all l')
  end.

(** Two generator bodies run one after the other. *)
Fixpoint chain {A} (g1 g2 : generator A) : generator A :=
  match g1 with
  | Stop => g2
  | Yield a rest => Yield a (chain rest g2)
  | Raise e => Raise e
  end.

(** [for x in g: body x], inside a generator function. *)
Fixpoint for_each {A B} (g : generator A) (body : A -> generator B)
  : generator B :=
  match g with
  | Stop => Stop
  | Yield a rest => chain (body a) (for_each rest body)
  | Raise e => Raise e
  end.

(** [for x in l: body x] over a list. *)
Fixpoint for_list {A B} (l : list A) (body : A -> generator B)
  : generator B :=
  match l with
  | [] => Stop
  | a :: l' => chain (body a) (for_list l' body)
  end.

(** The builtin [list(g)]. *)
Fixpoint list_of {A} (g : generator A) : outcome (list A) :=
  match g with
  | Stop => Returned []
  | Yield a rest => bind (list_of rest) (fun l => Returned (a :: l))
  | Raise e => Raised e
  end.

(** The list comprehension [[f x for x in g]], [f] a call that may raise. *)
Fixpoint comprehension {A B} (f : A -> outcome B) (g : generator A)
  : outcome (list B) :=
  match g with
  | Stop => Returned []
  | Yield a rest =>
      bind (f a) (fun b =>
      bind (comprehension f rest) (fun l => Returned (b :: l)))
  | Raise e => Raised e
  end.

(** Calling a generator function runs none of its body: the call hands
    back the generator object, and the body runs when it is iterated. *)
Definition call_generator {A} (body : generator A) : outcome (generator A) :=
  Returned body.

(** [l[i]]: a negative index counts from the end; out of range raises
    [IndexError]. *)
Definition getitem {A} (l : list A) (i : Z) : outcome A :=
  let n := Z.of_nat (length l) in
  let j := (if i <? 0 then i + n else i)%Z in
  if (j <? 0)%Z then Raised IndexError
  else match nth_error l (Z.to_nat j) with
       | Some a => Returned a
       | None => Raised IndexError
       end.

(** Truth value of a [str]: the empty string is false. *)
Definition truthy (s : string) : bool :=
  match s with
  | EmptyString => false
  | String _ _ => true
  end.

(** [s.startswith(pre)] *)
Fixpoint startswith (s pre : string) {struct pre} : bool :=
  match pre with
  | EmptyString => true
  | String c pre' =>
      match s with
      | EmptyString => false
      | String d s' => Ascii.eqb d c && startswith s' pre'
      end
  end.

(** [sub in s] *)
Fixpoint contains (s sub : string) : bool :=
  startswith s sub ||
  match s with
  | EmptyString => false
  | String _ s' => contains s' sub
  end.

(** [s.replace(old, new)] for a one-character [old]. *)
Fixpoint replace_char (s : string) (old : ascii) (new : string) : string :=
  match s with
  | EmptyString => EmptyString
  | String c s' =>
      if Ascii.eqb c old then (new ++ replace_char s' old new)%string
      else String c (replace_char s' old new)
  end.

(** [s[1:]] *)
Definition drop_first (s : string) : string :=
  match s with
  | EmptyString => EmptyString
  | String _ s' => s'
  end.

End Py.
Import Py.

(* ================================================================= *)
(** ** [os.path] (POSIX flavour) *)

Module PosixPath.

Definition sep : ascii := "/"%char.

(** [(p[:i], p[i:])] where [i = p.rfind('/') + 1]. *)
Fixpoint cut_after_last_sep (p : string) : string * string :=
  match p with
  | EmptyString => (EmptyString, EmptyString)
  | String c r =>
      let '(h, t) := cut_after_last_sep r in
      if truthy h then (String c h, t)
      else if Ascii.eqb c sep then (String c EmptyString, r)
      else (EmptyString, String c r)
  end.

(** [head == '/' * len(head)] *)
Fixpoint all_sep (s : string) : bool :=
  match s with
  | EmptyString => true
  | String c s' => Ascii.eqb c sep && all_sep s'
  end.

(** [head.rstrip('/')] *)
Fixpoint rstrip_sep (s : string) : string :=
  match s with
  | EmptyString => EmptyString
  | String c s' =>
      let r := rstrip_sep s' in
      if Ascii.eqb c sep && negb (truthy r) then EmptyString
      else String c r
  end.

(** [os.path.split(p)] *)
Definition split (p : string) : string * string :=
  let '(head, tail) := cut_after_last_sep p in
  if truthy head && negb (all_sep head) then (rstrip_sep head, tail)
  else (head, tail).

(** [a.endswith('/')] *)
Fixpoint ends_with_sep (a : string) : bool :=
  match a with
  | EmptyString => false
  | String c EmptyString => Ascii.eqb c sep
  | String _ a' => ends_with_sep a'
  end.

(** [os.path.join(a, b)] *)
Definition join (a b : string) : string :=
  if startswith b "/" then b
  else if negb (truthy a) || ends_with_sep a then (a ++ b)%string
  else (a ++ "/" ++ b)%string.

End PosixPath.

(* ================================================================= *)
(** ** The [re] module *)

Module Re.

(** A regular-expression engine: [compile] rejects a malformed pattern,
    [prefix_match r s] tells whether some prefix of [s] matches [r]
    (the anchoring of [re.match]). *)
Record engine : Type := {
  compiled : Type;
  compile : string -> option compiled;
  prefix_match : compiled -> string -> bool
}.

(** [re.match(pattern, s) is not None]; a malformed pattern raises
    [re.error]. *)
Definition match_ (E : engine) (pattern s : string) : outcome bool :=
  match compile E pattern with
  | None => Raised re_error
  | Some r => Returned (prefix_match E r s)
  end.

(** *** A concrete engine for a fragment of the pattern syntax

    Literal characters, [.], a postfix [*] and backslash-escaped
    punctuation.  Patterns are read left to right, as [sre_parse] does;
    the first character outside the fragment makes the pattern
    [Unsupported] (nothing is said about it), and a [*] with nothing to
    repeat, a repeated [*] or a trailing backslash make it [Malformed]. *)

Inductive regex : Set :=
| Void
| Eps
| Chr (c : ascii)
| Dot
| Seq (r1 r2 : regex)
| Alt (r1 r2 : regex)
| Star (r : regex).

Inductive parsed : Set :=
| Malformed
| Unsupported
| Parsed (r : regex).

Definition in_range (lo hi : nat) (c : ascii) : bool :=
  let n := nat_of_ascii c in (lo <=? n)%nat && (n <=? hi)%nat.

Definition is_alnum (c : ascii) : bool :=
  in_range 48 57 c || in_range 65 90 c || in_range 97 122 c.

Definition other_special (c : ascii) : bool :=
  existsb (Ascii.eqb c)
    ["+"; "?"; "{"; "}"; "["; "]"; "("; ")"; "|"; "^"; "$"]%char.

(** The pattern read so far is [done] followed by [last], the item a
    [*] would apply to; its flag tells whether it is already repeated. *)
Definition push (done : regex) (last : option (regex * bool)) : regex :=
  match last with
  | None => done
  | Some (a, _) => Seq done a
  end.

Fixpoint parse_from (p : string) (done : regex)
         (last : option (regex * bool)) : parsed :=
  match p with
  | EmptyString => Parsed (push done last)
  | String c rest =>
      if Ascii.eqb c "*" then
        match last with
        | None => Malformed
        | Some (_, true) => Malformed
        | Some (a, false) => parse_from rest done (Some (Star a, true))
        end
      else if Ascii.eqb c "\" then
        match rest with
        | EmptyString => Malformed
        | String d rest' =>
            if is_alnum d then Unsupported
            else parse_from rest' (push done last) (Some (Chr d, false))
        end
      else if Ascii.eqb c "." then
        parse_from rest (push done last) (Some (Dot, false))
      else if other_special c then Unsupported
      else parse_from rest (push done last) (Some (Chr c, false))
  end.

Definition parse (p : string) : parsed := parse_from p Eps None.

Fixpoint nullable (r : regex) : bool :=
  match r with
  | Void | Chr _ | Dot => false
  | Eps | Star _ => true
  | Seq r1 r2 => nullable r1 && nullable r2
  | Alt r1 r2 => nullable r1 || nullable r2
  end.

Definition newline : ascii := ascii_of_nat 10.

(** The residual of [r] after reading [c]. *)
Fixpoint deriv (c : ascii) (r : regex) : regex :=
  match r with
  | Void | Eps => Void
  | Chr d => if Ascii.eqb c d then Eps else Void
  | Dot => if Ascii.eqb c newline then Void else Eps
  | Seq r1 r2 =>
      if nullable r1 then Alt (Seq (deriv c r1) r2) (deriv c r2)
      else Seq (deriv c r1) r2
  | Alt r1 r2 => Alt (deriv c r1) (deriv c r2)
  | Star r1 => Seq (deriv c r1) (Star r1)
  end.

Fixpoint matches_prefix (r : regex) (s : string) : bool :=
  nullable r ||
  match s with
  | EmptyString => false
  | String c s' => matches_prefix (deriv c r) s'
  end.

Definition fragment : engine := {|
  compiled := regex;
  compile p := match parse p with Parsed r => Some r | _ => None end;
  prefix_match := matches_prefix
|}.

End Re.

(* ================================================================= *)
(** ** The [transform] module *)

Module Transform.

(** A reversible rewriting of a word: a forward and an inverse
    direction, each of which may raise. *)
Record transformation : Type := {
  forward : string -> outcome string;
  inverse : string -> outcome string
}.

Fixpoint run (steps : list (string -> outcome string)) (s : string)
  : outcome string :=
  match steps with
  | [] => Returned s
  | f :: steps' => bind (f s) (run steps')
  end.

(** Modelled from the spec: the module [transform], whose function
    [transform] completer.py imports, is not among the sources.  The
    specification (4.1) gives its contract: the word is mapped through
    the ordered list of transforms, in pipeline order going forward and,
    with the same list, in reverse traversal order going backward; a
    transform that raises propagates.  Both call sites in completer.py
    pass [word=True], a flag the contract does not describe. *)
Definition transform (sentence : string)
           (transformations : list transformation) (inv : bool)
  : outcome string :=
  if inv then run (map inverse (rev transformations)) sentence
  else run (map forward transformations) sentence.

End Transform.

(* ================================================================= *)
(** ** [class Completer] *)

Module Completer.

(** The operating system as the completer sees it. *)
Record system : Type := {
  listdir : string -> outcome (list string);   (* os.listdir *)
  isdir : string -> bool;                       (* os.path.isdir *)
  environ : list (string * string)              (* os.environ *)
}.

(** The attributes of a [Completer] object. *)
Record t : Type := {
  transforms : list Transform.transformation;
  use_suffix : bool;
  exclude_patterns : list string;
  extensions : list (string -> generator string)
}.

(** [Completer.__init__] *)
Definition init (transforms : list Transform.transformation)
           (use_suffix : bool) (exclude : option (list string))
           (extensions : option (list (string -> generator string))) : t :=
  {| transforms := transforms;
     use_suffix := use_suffix;
     exclude_patterns := match exclude with Some l => l | None => [] end;
     extensions := match extensions with Some l => l | None => [] end |}.

Section Methods.

Context (os : system) (re : Re.engine) (self : t).

(** The inner [for ... else] of [exclude_matches]: [true] when the
    loop left through [break]. *)
Fixpoint excluded (patterns : list string) (match_ : string)
  : outcome bool :=
  match patterns with
  | [] => Returned false
  | exclude_pattern :: patterns' =>
      bind (Re.match_ re exclude_pattern match_) (fun hit =>
      if hit then Returned true else excluded patterns' match_)
  end.

Definition exclude_matches (matches : generator string)
  : generator string :=
  for_each matches (fun match_ =>
    match excluded (exclude_patterns self) match_ with
    | Raised e => Raise e
    | Returned true => Stop
    | Returned false => Yield match_ Stop
    end).

Definition _is_hidden_file (filename : string) : bool :=
  startswith filename ".".

(** One of the two first loops of [gen_filename_completions]: the
    flag [match_found] is threaded through, next to what is yielded. *)
Fixpoint scan (test : string -> bool) (filenames : list string)
         (match_found : bool) : bool * list string :=
  match filenames with
  | [] => (match_found, [])
  | filename :: filenames' =>
      if test filename then
        let '(found, yielded) := scan test filenames' true in
        (found, filename :: yielded)
      else scan test filenames' match_found
  end.

(** The last loop of [gen_filename_completions]. *)
Fixpoint rescan (word : string) (filenames : list string) : list string :=
  match filenames with
  | [] => []
  | filename :: filenames' =>
      if contains filename word then filename :: rescan word filenames'
      else rescan word filenames'
  end.

(** The generator never raises: it is given as what it yields. *)
Definition gen_filename_completions (word : string)
           (filenames : list string) : list string :=
  let match_found := false in
  let '(match_found, yielded) :=
    if truthy word then
      scan (fun filename => startswith filename word)
           filenames match_found
    else
      scan (fun filename => negb (_is_hidden_file filename))
           filenames match_found in
  if negb match_found then yielded ++ rescan word filenames
  else yielded.

(** Iterating a mapping yields its keys. *)
Fixpoint gen_variable_completions_keys (var : string) (keys : list string)
  : list string :=
  match keys with
  | [] => []
  | k :: keys' =>
      if startswith k var
      then ("$" ++ k)%string :: gen_variable_completions_keys var keys'
      else gen_variable_completions_keys var keys'
  end.

Definition gen_variable_completions (word : string)
           (env : list (string * string)) : list string :=
  let var := drop_first word in
  gen_variable_completions_keys var (map fst env).

Definition gen_matches (word : string) : generator string :=
  chain
    (if startswith word "$" then
       for_list (gen_variable_completions word (environ os))
                (fun match_ => Yield match_ Stop)
     else
       let '(head, tail) := PosixPath.split word in
       match listdir os (if truthy head then head else ".") with
       | Raised e => Raise e
       | Returned filenames =>
           for_list (gen_filename_completions tail filenames)
                    (fun match_ => Yield (PosixPath.join head match_) Stop)
       end)
    (for_list (extensions self) (fun extension =>
       for_each (extension word) (fun match_ => Yield match_ Stop))).

Definition _escape (path : string) : string :=
  replace_char path " " "\ ".

Definition inflect (filename : string) : string :=
  let suffix := if isdir os filename then "/" else " " in
  (_escape filename ++ suffix)%string.

(** [None] is [Returned None], a list is [Returned (Some l)]. *)
Definition get_matches (word : string) : outcome (option (list string)) :=
  let matches := gen_matches word in
  match call_generator (exclude_matches matches) with
  | Raised _ => Returned None
  | Returned matches =>
      if use_suffix self then
        bind (comprehension (fun match_ => Returned (inflect match_))
                            matches)
             (fun matches => Returned (Some matches))
      else
        bind (list_of matches) (fun l => Returned (Some l))
  end.

(** What the [try ... except IndexError: return None] of [complete]
    makes of the outcome of its body. *)
Definition except_IndexError (body : outcome (option string))
  : outcome (option string) :=
  match body with
  | Raised e => if is_IndexError e then Returned None else Raised e
  | Returned v => Returned v
  end.

(** [complete]; the attempt to import [rl] at its start only sets a
    display option and is left out. *)
Definition complete (word : string) (state : Z) : outcome (option string) :=
  bind (Transform.transform word (transforms self) false) (fun word =>
  except_IndexError
    (bind (get_matches word) (fun matches =>
     bind (match matches with
           | None => Raised TypeError
           | Some l => getitem l state
           end) (fun match_ =>
     bind (Transform.transform match_ (transforms self) true)
          (fun r => Returned (Some r)))))).

End Methods.

End Completer.

(* ================================================================= *)
(** ** Statement vocabulary *)

Module Spec.

(** The prefix phase of the filename generator, in the words of the
    specification (4.2.c): with a non-empty fragment, the entries that
    start with it; with an empty fragment, the entries that are not
    hidden. *)
Definition prefix_phase (fragment : string) (entries : list string)
  : list string :=
  if truthy fragment
  then filter (fun entry => startswith entry fragment) entries
  else filter (fun entry => negb (startswith entry ".")) entries.

(** The substring phase (4.2.d): the entries that contain the fragment. *)
Definition substring_phase (fragment : string) (entries : list string)
  : list string :=
  filter (fun entry => contains entry fragment) entries.

(** A candidate survives the exclusion filter when no rule matches it. *)
Definition survives (re : Re.engine) (rules : list string)
           (candidate : string) : bool :=
  negb (existsb (fun rule =>
                   match Re.match_ re rule candidate with
                   | Returned hit => hit
                   | Raised _ => false
                   end) rules).

Definition well_formed (re : Re.engine) (rule : string) : Prop :=
  Re.compile re rule <> None.

(** A transform whose inverse undoes its forward direction wherever the
    forward direction is defined. *)
Definition invertible (t : Transform.transformation) : Prop :=
  forall x y, Transform.forward t x = Returned y ->
              Transform.inverse t y = Returned x.

(** The number of space characters of a string. *)
Fixpoint spaces (s : string) : nat :=
  match s with
  | EmptyString => 0
  | String c s' => (if Ascii.eqb c " " then 1 else 0) + spaces s'
  end.

End Spec.

(* ================================================================= *)
(** ** Concrete configurations *)

Module Example.

(** A working directory with four entries, none of them a directory;
    no other directory can be listed. *)
Definition os : Completer.system := {|
  Completer.listdir d :=
    if String.eqb d "."
    then Returned ["main.c"; "main.c~"; "main.o"; "README"]
    else Raised OSError;
  Completer.isdir _ := false;
  Completer.environ :=
    [("HOME", "/home/user"); ("PATH", "/usr/bin"); ("HOSTNAME", "box")]
|}.

(** The exclusion rules of the class documentation. *)
Definition completer : Completer.t :=
  Completer.init [] true (Some [".*~"; ".*\.o"]) None.

(** A completer whose only exclusion rule is malformed ([*] has nothing
    to repeat). *)
Definition misconfigured : Completer.t :=
  Completer.init [] true (Some ["*"]) None.

(** A transform that prefixes a word with a marker character and, in
    the inverse direction, removes it. *)
Definition mark (c : ascii) : Transform.transformation := {|
  Transform.forward s := Returned (String c s);
  Transform.inverse s :=
    match s with
    | String d s' =>
        if Ascii.eqb d c then Returned s' else Raised (Exception "ValueError")
    | EmptyString => Raised (Exception "ValueError")
    end
|}.

Definition pipeline : list Transform.transformation :=
  [mark "a"; mark "b"].

End Example.

(* ================================================================= *)
(** ** More of [str], and [dict] *)

Module Str.

(** [s.endswith(c)] for a one-character [c]. *)
Fixpoint endswith_char (s : string) (c : ascii) : bool :=
  match s with
  | EmptyString => false
  | String d EmptyString => Ascii.eqb d c
  | String _ s' => endswith_char s' c
  end.

(** [s[:-1]] *)
Fixpoint drop_last (s : string) : string :=
  match s with
  | EmptyString => EmptyString
  | String _ EmptyString => EmptyString
  | String c s' => String c (drop_last s')
  end.

(** The characters at which [s.split()] splits a byte string: space,
    tab, line feed, vertical tab, form feed and carriage return. *)
Definition is_space (c : ascii) : bool :=
  let n := nat_of_ascii c in
  (n =? 32)%nat || ((9 <=? n)%nat && (n <=? 13)%nat).

(** [s.split()]: the maximal runs of characters that are not spaces. *)
Fixpoint split (s : string) : list string :=
  match s with
  | EmptyString => []
  | String c s' =>
      if is_space c then split s'
      else
        match s' with
        | EmptyString => [String c EmptyString]
        | String d _ =>
            if is_space d then String c EmptyString :: split s'
            else match split s' with
                 | w :: ws => String c w :: ws
                 | [] => [String c EmptyString]
                 end
        end
  end.

(** [sep.join(l)] *)
Definition join (sep : string) (l : list string) : string :=
  String.concat sep l.

(** A word: a non-empty string without a space character. *)
Fixpoint no_space (s : string) : bool :=
  match s with
  | EmptyString => true
  | String c s' => negb (is_space c) && no_space s'
  end.

Definition is_word (s : string) : bool := truthy s && no_space s.

(** A [dict] from [str] to [str], as the list of its items; a key is
    looked up from the front. *)
Definition dict : Type := list (string * string).

(** [d[k]], [None] standing for [KeyError]. *)
Fixpoint lookup (d : dict) (k : string) : option string :=
  match d with
  | [] => None
  | (k', v) :: d' => if String.eqb k' k then Some v else lookup d' k
  end.

(** [d.get(k, default)] *)
Definition get (d : dict) (k default : string) : string :=
  match lookup d k with
  | Some v => v
  | None => default
  end.

End Str.

(* ================================================================= *)
(** ** [make_completer] *)

Module Rl.

(** The attributes of [rl.completer] that [make_completer] sets; the
    registered completion function is the [complete] method of the
    recorded [Completer]. *)
Record completer : Type := {
  registered : option Completer.t;
  bindings : list string;
  word_break_characters : string
}.

End Rl.

Module Setup.

Definition KeyError : exn := Exception "KeyError".

(** [make_completer]; [rl] is [None] when the module [rl] cannot be
    imported.  The warning and the printed value of [PYTHONPATH] are not
    recorded. *)
Definition make_completer (rl : option Rl.completer) (os : Completer.system)
           (transforms : list Transform.transformation) (use_suffix : bool)
           (exclude : option (list string))
  : outcome (option Completer.t) * option Rl.completer :=
  match rl with
  | None =>
      match Str.lookup (Completer.environ os) "PYTHONPATH" with
      | None => (Raised KeyError, None)
      | Some _ => (Returned None, None)
      end
  | Some rl_completer =>
      let completer := Completer.init transforms use_suffix exclude None in
      (Returned (Some completer),
       Some {| Rl.registered := Some completer;
               Rl.bindings := Rl.bindings rl_completer ++ ["TAB: complete"];
               Rl.word_break_characters :=
                 replace_char
                   (replace_char
                      (replace_char
                         (replace_char
                            (Rl.word_break_characters rl_completer)
                            "-" "")
                         "~" "")
                      "$" "")
                   "/" "" |})
  end.

End Setup.

(* ================================================================= *)
(** ** [class CommandLineInterface] (cli.py) *)

Module Cli.

Definition EOFError : exn := Exception "EOFError".
Definition SystemExit : exn := Exception "SystemExit".
Definition NotImplementedError : exn := Exception "NotImplementedError".

Definition is_exn (name : string) (e : exn) : bool :=
  match e with
  | Exception n => String.eqb n name
  | _ => false
  end.

(** The terminal: the lines still to be typed (without their line
    ends), and what was written to standard output and standard error,
    oldest first. *)
Record console : Type := {
  stdin : list string;
  stdout : list string;
  stderr : list string
}.

Definition write_stdout (msg : string) (c : console) : console :=
  {| stdin := stdin c; stdout := stdout c ++ [msg]; stderr := stderr c |}.

Definition write_stderr (msg : string) (c : console) : console :=
  {| stdin := stdin c; stdout := stdout c; stderr := stderr c ++ [msg] |}.

(** [raw_input(prompt)]: the prompt is written, then a line is read;
    at the end of the input [EOFError] is raised. *)
Definition raw_input (prompt : string) (c : console)
  : outcome string * console :=
  let c := write_stdout prompt c in
  match stdin c with
  | [] => (Raised EOFError, c)
  | line :: rest =>
      (Returned line,
       {| stdin := rest; stdout := stdout c; stderr := stderr c |})
  end.

(** A [CommandLineInterface] whose [eval] works on a state of type
    [S]; [eval] is the method subclasses override. *)
Record t (S : Type) : Type := {
  environ : Str.dict;
  eval : S -> string -> outcome (option string) * S
}.

(** The class itself: [eval] raises [NotImplementedError]. *)
Definition base (environ : Str.dict) : t unit :=
  {| environ := environ;
     eval := fun st _ => (Raised NotImplementedError, st) |}.

Section Methods.

Context {S : Type} (self : t S).

(** [traceback.format_exc()] *)
Context (format_exc : exn -> string).

Definition primary_prompt_string : string :=
  Str.get (environ self) "PS1" "$ ".

Definition secondary_prompt_string : string :=
  Str.get (environ self) "PS2" "> ".

(** The [while] loop of [read], over the lines still to be typed and
    what standard output holds: each turn prompts and reads one line. *)
Fixpoint read_continuation (pending : list string) (line : string)
         (written : list string)
  : outcome string * (list string * list string) :=
  match pending with
  | [] =>
      if Str.endswith_char line "\"
      then (Raised EOFError, ([], written ++ [secondary_prompt_string]))
      else (Returned line, ([], written))
  | next :: pending' =>
      if Str.endswith_char line "\"
      then read_continuation pending' (Str.drop_last line ++ next)%string
                             (written ++ [secondary_prompt_string])
      else (Returned line, (pending, written))
  end.

(** [except EOFError: raise SystemExit()] *)
Definition except_EOFError {A} (body : outcome A) : outcome A :=
  match body with
  | Raised e => if is_exn "EOFError" e then Raised SystemExit else Raised e
  | Returned a => Returned a
  end.

Definition read (c : console) : outcome string * console :=
  match raw_input primary_prompt_string c with
  | (Raised e, c') => (except_EOFError (Raised e), c')
  | (Returned line, c') =>
      let '(r, (pending, written)) :=
        read_continuation (stdin c') line (stdout c') in
      (except_EOFError r,
       {| stdin := pending; stdout := written; stderr := stderr c' |})
  end.

Definition output (msg : string) (c : console) : console :=
  write_stdout msg c.

Definition error (msg : string) (c : console) : console :=
  write_stderr msg c.

(** The [while True] loop of [interact]; [None] when [fuel] turns did
    not reach the [break]. *)
Fixpoint interact_loop (fuel : nat) (st : S) (c : console)
  : option (S * console) :=
  match fuel with
  | O => None
  | Datatypes.S fuel' =>
      match read c with
      | (Raised e, c') =>
          if is_exn "SystemExit" e then Some (st, c')
          else interact_loop fuel' st (error (format_exc e) c')
      | (Returned line, c') =>
          match eval self st line with
          | (Raised e, st') =>
              if is_exn "SystemExit" e then Some (st', c')
              else interact_loop fuel' st' (error (format_exc e) c')
          | (Returned None, st') => interact_loop fuel' st' c'
          | (Returned (Some response), st') =>
              interact_loop fuel' st' (output response c')
          end
      end
  end.

(** [print(banner)] *)
Definition print (msg : string) (c : console) : console :=
  write_stdout (msg ++ String (ascii_of_nat 10) "")%string c.

(** [interact]: every turn of the loop that does not leave it reads at
    least one line, so one turn more than there are lines suffices. *)
Definition interact (banner : option string) (st : S) (c : console)
  : option (S * console) :=
  let c := match banner with
           | Some b => if truthy b then print b c else c
           | None => c
           end in
  interact_loop (Datatypes.S (length (stdin c))) st c.

End Methods.

End Cli.

(* ================================================================= *)
(** ** [class Shell] (twosheds.py) *)

Module Shell.

Section Methods.

(** [self.aliases] and [os.environ]. *)
Context (aliases environ : Str.dict).

(** The body of the loop of [rewrite]: what is appended for a token. *)
Definition rewrite_token (token : string) : string :=
  match Str.lookup aliases token with
  | None =>
      if startswith token "$" then
        match Str.lookup environ (drop_first token) with
        | None => token
        | Some v => v
        end
      else token
  | Some v => v
  end.

Definition rewrite (line : string) : string :=
  let tokens := Str.split line in
  Str.join " " (map rewrite_token tokens).

(** [subprocess.check_output(command, shell=True)] *)
Context (check_output : string -> outcome string).

(** The loop of [complete] that fills [matches]. *)
Fixpoint collect (head tail : string) (filenames : list string)
  : list string :=
  match filenames with
  | [] => []
  | filename :: filenames' =>
      if startswith filename tail
      then PosixPath.join head filename :: collect head tail filenames'
      else collect head tail filenames'
  end.

Definition complete (text : string) (state : Z) : outcome (option string) :=
  let '(head, tail) := PosixPath.split text in
  bind (check_output ("ls " ++ head)%string) (fun ls =>
  let filenames := Str.split ls in
  let matches := collect head tail filenames in
  match getitem matches state with
  | Returned m => Returned (Some m)
  | Raised e => if is_IndexError e then Returned None else Raised e
  end).

End Methods.

End Shell.

(* ================================================================= *)
(** ** Strings *)

Section Strings.

Lemma startswith_app (p r : string) : startswith (p ++ r)%string p = true.
Proof.
  induction p as [|c p IH]; simpl; [reflexivity|].
  now rewrite Ascii.eqb_refl, IH.
Qed.

Lemma startswith_iff (s p : string) :
  startswith s p = true <-> exists r, s = (p ++ r)%string.
Proof.
  split.
  - revert s; induction p as [|c p IH]; intros s H; simpl in *.
    + now exists s.
    + destruct s as [|d s]; [discriminate|].
      apply andb_true_iff in H as [Hc Hs].
      apply Ascii.eqb_eq in Hc; subst d.
      destruct (IH _ Hs) as [r ->]. now exists r.
  - intros [r ->]. apply startswith_app.
Qed.

Lemma startswith_empty (s : string) : startswith s "" = true.
Proof. reflexivity. Qed.

Lemma contains_empty (s : string) : contains s "" = true.
Proof. destruct s; reflexivity. Qed.

Lemma contains_iff (s w : string) :
  contains s w = true <-> exists a b, s = (a ++ w ++ b)%string.
Proof.
  split.
  - induction s as [|c s IH]; simpl; intros H.
    + apply orb_true_iff in H as [H|H]; [|discriminate].
      apply startswith_iff in H as [r Hr]. now exists ""%string, r.
    + apply orb_true_iff in H as [H|H].
      * apply startswith_iff in H as [r Hr]. now exists ""%string, r.
      * destruct (IH H) as (a & b & ->). now exists (String c a), b.
  - intros (a & b & ->).
    induction a as [|c a IH]; simpl.
    + destruct (w ++ b)%string eqn:E; simpl.
      * destruct w; [reflexivity|discriminate].
      * rewrite <- E, startswith_app. reflexivity.
    + rewrite IH. apply orb_true_r.
Qed.

End Strings.

(* ================================================================= *)
(** ** The filename generator *)

Section Filenames.

Import Completer.

Lemma scan_filter (test : string -> bool) (filenames : list string) :
  forall match_found,
    scan test filenames match_found =
    (match_found || existsb test filenames, filter test filenames).
Proof.
  induction filenames as [|f fs IH]; intros b; simpl.
  - now rewrite orb_false_r.
  - destruct (test f); simpl.
    + rewrite IH. simpl. now rewrite orb_true_r.
    + apply IH.
Qed.

Lemma rescan_filter (word : string) (filenames : list string) :
  rescan word filenames = Spec.substring_phase word filenames.
Proof.
  unfold Spec.substring_phase.
  induction filenames as [|f fs IH]; simpl; [reflexivity|].
  destruct (contains f word); now rewrite IH.
Qed.

Lemma existsb_filter_nil {A} (test : A -> bool) (l : list A) :
  existsb test l = false <-> filter test l = [].
Proof.
  induction l as [|a l IH]; simpl; [tauto|].
  destruct (test a); simpl; [split; discriminate | exact IH].
Qed.

(** The generator is its prefix phase, followed by the substring phase
    when the prefix phase yielded nothing. *)
Lemma gen_filename_completions_phases (word : string)
      (filenames : list string) :
  gen_filename_completions word filenames =
  match Spec.prefix_phase word filenames with
  | [] => Spec.substring_phase word filenames
  | yielded => yielded
  end.
Proof.
  unfold gen_filename_completions, Spec.prefix_phase, _is_hidden_file.
  destruct (truthy word); rewrite scan_filter; simpl;
    match goal with
    | |- context [existsb ?t filenames] =>
        destruct (existsb t filenames) eqn:E; simpl
    end.
  all: try (apply existsb_filter_nil in E; rewrite E; simpl;
            apply rescan_filter).
  all: destruct (filter _ filenames) eqn:F; [|reflexivity];
    apply existsb_filter_nil in F; congruence.
Qed.

(** C3 as stated fails: for the fragment [an] the generator yields
    [banana], which does not start with [an]. *)
Lemma gen_filename_completions_not_only_prefixes :
  gen_filename_completions "an" ["apple"; "banana"; "grape"]
  <> filter (fun entry => startswith entry "an")
            ["apple"; "banana"; "grape"].
Proof. vm_compute. discriminate. Qed.

(** C3 (amended): whenever at least one entry passes the prefix test,
    the filename generator yields exactly the entries that start with a
    non-empty fragment, in input order, and exactly the entries that do
    not begin with [.] for the empty fragment. *)
Theorem gen_filename_completions_prefix_policy
        (fragment : string) (entries : list string) :
  Spec.prefix_phase fragment entries <> [] ->
  (fragment <> ""%string ->
   gen_filename_completions fragment entries =
   filter (fun entry => startswith entry fragment) entries) /\
  (fragment = ""%string ->
   gen_filename_completions fragment entries =
   filter (fun entry => negb (startswith entry ".")) entries).
Proof.
  intros Hne. rewrite gen_filename_completions_phases.
  destruct (Spec.prefix_phase fragment entries) as [|y ys] eqn:E;
    [contradiction|].
  rewrite <- E. unfold Spec.prefix_phase.
  split; intros H.
  - destruct fragment; [contradiction|reflexivity].
  - subst fragment. reflexivity.
Qed.

Lemma gen_filename_completions_prefix_policy_witness :
  Spec.prefix_phase "foo" ["food"; "foo"; "foonly"; "fodder"] <> [] /\
  gen_filename_completions "foo" ["food"; "foo"; "foonly"; "fodder"] =
  ["food"; "foo"; "foonly"].
Proof.
  assert (H : Spec.prefix_phase "foo" ["food"; "foo"; "foonly"; "fodder"]
              <> []) by (vm_compute; discriminate).
  split; [exact H|].
  apply (proj1 (gen_filename_completions_prefix_policy
                  "foo" ["food"; "foo"; "foonly"; "fodder"] H)).
  discriminate.
Defined.

(** C4: when the prefix phase yields no entry, the filename generator
    yields exactly the entries that contain the fragment as a substring,
    in input order, hidden entries included. *)
Theorem gen_filename_completions_fallback
        (fragment : string) (entries : list string) :
  Spec.prefix_phase fragment entries = [] ->
  gen_filename_completions fragment entries =
  filter (fun entry => contains entry fragment) entries.
Proof.
  intros H. rewrite gen_filename_completions_phases, H. reflexivity.
Qed.

Lemma gen_filename_completions_fallback_witness :
  Spec.prefix_phase "an" ["apple"; "banana"; "grape"] = [] /\
  gen_filename_completions "an" ["apple"; "banana"; "grape"] = ["banana"].
Proof.
  split; [reflexivity|].
  apply (gen_filename_completions_fallback
           "an" ["apple"; "banana"; "grape"]).
  reflexivity.
Defined.

(** C10: with an empty fragment and a listing whose entries are all
    hidden, the filename generator yields every entry. *)
Theorem gen_filename_completions_all_hidden (entries : list string) :
  Forall (fun entry => _is_hidden_file entry = true) entries ->
  Spec.prefix_phase "" entries = [] /\
  gen_filename_completions "" entries = entries.
Proof.
  intros H.
  assert (P : Spec.prefix_phase "" entries = []).
  { unfold Spec.prefix_phase; cbn [truthy].
    induction H as [|f fs Hf _ IH]; cbn [filter]; [reflexivity|].
    unfold _is_hidden_file in Hf. now rewrite Hf. }
  split; [exact P|].
  rewrite gen_filename_completions_phases, P.
  unfold Spec.substring_phase.
  clear. induction entries as [|f fs IH]; simpl; [reflexivity|].
  now rewrite contains_empty, IH.
Qed.

Lemma gen_filename_completions_all_hidden_witness :
  Forall (fun entry => _is_hidden_file entry = true)
         [".bashrc"; ".git"] /\
  gen_filename_completions "" [".bashrc"; ".git"] = [".bashrc"; ".git"].
Proof.
  assert (H : Forall (fun entry => _is_hidden_file entry = true)
                     [".bashrc"; ".git"])
    by (repeat constructor).
  split; [exact H|].
  apply (proj2 (gen_filename_completions_all_hidden H)).
Defined.

End Filenames.

(* ================================================================= *)
(** ** Generators *)

Section Generators.

Context {A B : Type}.

Lemma chain_Stop_r (g : generator A) : chain g Stop = g.
Proof. induction g; simpl; congruence. Qed.

Lemma for_each_reyield (g : generator A) :
  for_each g (fun a => Yield a Stop) = g.
Proof. induction g; simpl; congruence. Qed.

Lemma for_list_yield (f : A -> B) (l : list A) :
  for_list l (fun a => Yield (f a) Stop) = yield_all (map f l).
Proof. induction l; simpl; congruence. Qed.

Lemma for_list_ext (body body' : A -> generator B) (l : list A) :
  (forall a, body a = body' a) -> for_list l body = for_list l body'.
Proof. intros E. induction l; simpl; congruence. Qed.

Lemma list_of_yield_all (l : list A) : list_of (yield_all l) = Returned l.
Proof. induction l as [|a l IH]; simpl; [|rewrite IH]; reflexivity. Qed.

Lemma comprehension_pure (f : A -> B) (g : generator A) :
  comprehension (fun a => Returned (f a)) g =
  bind (list_of g) (fun l => Returned (map f l)).
Proof.
  induction g as [|a g IH|e]; simpl; try reflexivity.
  rewrite IH. destruct (list_of g); reflexivity.
Qed.

End Generators.

Lemma for_list_id {A} (l : list A) :
  for_list l (fun a => Yield a Stop) = yield_all l.
Proof. rewrite (for_list_yield (fun a => a)). now rewrite map_id. Qed.

Lemma existsb_first {A} (f : A -> bool) (l : list A) :
  existsb f l = true <->
  exists before x after,
    l = before ++ x :: after /\ f x = true /\
    Forall (fun y => f y = false) before.
Proof.
  split.
  - induction l as [|a l IH]; simpl; [discriminate|].
    destruct (f a) eqn:Fa; simpl; intros H.
    + exists [], a, l. repeat split; auto.
    + destruct (IH H) as (before & x & after & -> & Fx & Hb).
      exists (a :: before), x, after. repeat split; auto.
  - intros (before & x & after & -> & Fx & _).
    rewrite existsb_app. simpl. rewrite Fx. apply orb_true_r.
Qed.

(* ================================================================= *)
(** ** The exclusion filter *)

Section Exclusion.

Import Completer.

Context (re : Re.engine).

Lemma match_well_formed (rule candidate : string) :
  Spec.well_formed re rule ->
  exists hit, Re.match_ re rule candidate = Returned hit.
Proof.
  unfold Spec.well_formed, Re.match_. intros H.
  destruct (Re.compile re rule); [eauto|contradiction].
Qed.

Lemma excluded_well_formed (rules : list string) (candidate : string) :
  Forall (Spec.well_formed re) rules ->
  excluded re rules candidate =
  Returned (negb (Spec.survives re rules candidate)).
Proof.
  unfold Spec.survives. rewrite negb_involutive.
  induction 1 as [|rule rules Hr _ IH]; simpl; [reflexivity|].
  destruct (match_well_formed candidate Hr) as [hit ->]. simpl.
  destruct hit; [reflexivity|exact IH].
Qed.

(** The walk over the rules stops at the first rule that matches: the
    rules after it are not consulted, well formed or not. *)
Lemma excluded_first_match (before after : list string)
      (rule candidate : string) :
  Forall (fun r => Re.match_ re r candidate = Returned false) before ->
  Re.match_ re rule candidate = Returned true ->
  excluded re (before ++ rule :: after) candidate = Returned true.
Proof.
  intros Hb Hr. induction Hb as [|r rs H _ IH]; simpl.
  - now rewrite Hr.
  - now rewrite H.
Qed.

(** C6: over well-formed rules, the exclusion filter keeps exactly the
    candidates that no rule matches, in their order; a candidate is
    dropped exactly when the rule list has a first rule matching it. *)
Theorem exclude_matches_keeps_unmatched (self : t)
        (candidates : list string) :
  Forall (Spec.well_formed re) (exclude_patterns self) ->
  exclude_matches re self (yield_all candidates) =
  yield_all (filter (Spec.survives re (exclude_patterns self)) candidates)
  /\
  forall candidate,
    Spec.survives re (exclude_patterns self) candidate = false <->
    exists before rule after,
      exclude_patterns self = before ++ rule :: after /\
      Re.match_ re rule candidate = Returned true /\
      Forall (fun r => Re.match_ re r candidate = Returned false) before.
Proof.
  intros WF. split.
  - unfold exclude_matches.
    induction candidates as [|c cs IH]; simpl; [reflexivity|].
    rewrite (excluded_well_formed c WF), IH.
    destruct (Spec.survives re (exclude_patterns self) c); reflexivity.
  - intros candidate. unfold Spec.survives.
    rewrite negb_false_iff, existsb_first.
    split; intros (before & rule & after & E & Hr & Hb);
      exists before, rule, after; (split; [exact E|]).
    + rewrite E in WF. apply Forall_app in WF as [WFb WFr].
      inversion WFr as [|? ? Wr _]; subst.
      destruct (match_well_formed candidate Wr) as [hit Hh].
      rewrite Hh in Hr |- *. subst hit. split; [reflexivity|].
      rewrite Forall_forall in *. intros r Hin.
      destruct (match_well_formed candidate (WFb r Hin)) as [h Hh'].
      specialize (Hb r Hin). simpl in Hb. rewrite Hh' in Hb |- *.
      now subst h.
    + rewrite Hr. split; [reflexivity|].
      rewrite Forall_forall in *. intros r Hin. now rewrite (Hb r Hin).
Qed.

End Exclusion.

Lemma exclude_matches_keeps_unmatched_witness :
  Forall (Spec.well_formed Re.fragment)
         (Completer.exclude_patterns Example.completer) /\
  Completer.exclude_matches Re.fragment Example.completer
    (yield_all ["main.c"; "main.c~"; "main.o"; "README"]) =
  yield_all ["main.c"; "README"].
Proof.
  assert (WF : Forall (Spec.well_formed Re.fragment)
                      (Completer.exclude_patterns Example.completer))
    by (repeat constructor; discriminate).
  split; [exact WF|].
  exact (proj1 (exclude_matches_keeps_unmatched
                  Example.completer
                  ["main.c"; "main.c~"; "main.o"; "README"] WF)).
Defined.

(* ================================================================= *)
(** ** Variable completion *)

Section Variables.

Import Completer.

Lemma gen_variable_completions_keys_filter (var : string)
      (keys : list string) :
  gen_variable_completions_keys var keys =
  map (fun k => ("$" ++ k)%string)
      (filter (fun k => startswith k var) keys).
Proof.
  induction keys as [|k keys IH]; simpl; [reflexivity|].
  destruct (startswith k var); simpl; now rewrite IH.
Qed.

(** C7: for a word that begins with [$], the variable generator yields
    ["$" ++ k] for exactly the environment keys [k] that start with the
    word less its first character, and [gen_matches] consists of these
    candidates followed by those of the extensions: the directory
    listing plays no part. *)
Theorem gen_matches_variable (os : system) (self : t) (word : string) :
  startswith word "$" = true ->
  gen_variable_completions word (environ os) =
  map (fun k => ("$" ++ k)%string)
      (filter (fun k => startswith k (drop_first word))
              (map fst (environ os)))
  /\
  gen_matches os self word =
  chain (yield_all (gen_variable_completions word (environ os)))
        (for_list (extensions self) (fun extension => extension word))
  /\
  forall os',
    environ os' = environ os ->
    gen_matches os' self word = gen_matches os self word.
Proof.
  intros H. split; [apply gen_variable_completions_keys_filter|].
  assert (E : forall o, gen_matches o self word =
              chain (yield_all (gen_variable_completions word (environ o)))
                    (for_list (extensions self)
                              (fun extension => extension word))).
  { intros o. unfold gen_matches. rewrite H, for_list_id.
    f_equal. apply for_list_ext. intros ext. apply for_each_reyield. }
  split; [apply E|].
  intros os' Henv. now rewrite !E, Henv.
Qed.

Lemma gen_matches_variable_witness :
  startswith "$HO" "$" = true /\
  gen_matches Example.os Example.completer "$HO" =
  yield_all ["$HOME"; "$HOSTNAME"].
Proof.
  split; [reflexivity|].
  exact (proj1 (proj2 (gen_matches_variable
                         Example.os Example.completer "$HO" eq_refl))).
Defined.

End Variables.

(* ================================================================= *)
(** ** Inflection *)

Section Inflection.

Import Completer.

Lemma _escape_app (a b : string) :
  _escape (a ++ b) = (_escape a ++ _escape b)%string.
Proof.
  unfold _escape. induction a as [|c a IH]; simpl; [reflexivity|].
  rewrite IH. destruct (Ascii.eqb c " "); reflexivity.
Qed.

Lemma _escape_length (name : string) :
  String.length (_escape name) =
  String.length name + Spec.spaces name.
Proof.
  unfold _escape. induction name as [|c s IH]; simpl; [reflexivity|].
  destruct (Ascii.eqb c " "); simpl; rewrite IH; lia.
Qed.

(** What [get_matches] returns, before looking at the suffix toggle. *)
Lemma get_matches_unfold (os : system) (re : Re.engine) (self : t)
      (word : string) :
  get_matches os re self word =
  bind (list_of (exclude_matches re self (gen_matches os self word)))
       (fun l => Returned
                   (Some (if use_suffix self then map (inflect os) l
                          else l))).
Proof.
  unfold get_matches, call_generator.
  destruct (use_suffix self).
  - rewrite comprehension_pure.
    destruct (list_of _); reflexivity.
  - reflexivity.
Qed.

(** C8: [inflect] appends [/] to the name of a directory and a single
    space to any other name, after the name itself (and not the suffix)
    had each of its spaces replaced by a backslash and a space; with
    [use_suffix] off, [get_matches] returns the surviving candidates as
    they are. *)
Theorem inflect_suffix_and_escape (os : system) (name : string) :
  inflect os name =
  (_escape name ++ (if isdir os name then "/" else " "))%string
  /\ _escape "" = ""%string
  /\ (forall c : ascii,
         _escape (String c "") =
         if Ascii.eqb c " " then "\ "%string else String c "")
  /\ (forall a b, _escape (a ++ b) = (_escape a ++ _escape b)%string)
  /\ String.length (_escape name) = String.length name + Spec.spaces name
  /\ (forall re self word,
         get_matches os re self word =
         bind (list_of (exclude_matches re self (gen_matches os self word)))
              (fun l => Returned
                          (Some (if use_suffix self
                                 then map (inflect os) l else l)))).
Proof.
  split; [|split; [|split; [|split; [|split]]]].
  - unfold inflect. destruct (isdir os name); reflexivity.
  - reflexivity.
  - intros c. unfold _escape. simpl. destruct (Ascii.eqb c " "); reflexivity.
  - apply _escape_app.
  - apply _escape_length.
  - intros re self word. apply get_matches_unfold.
Qed.

Lemma inflect_suffix_and_escape_witness :
  inflect Example.os "my file" = "my\ file "%string /\
  get_matches Example.os Re.fragment
              (init [] false (Some [".*~"; ".*\.o"]) None) "" =
  Returned (Some ["main.c"; "README"]).
Proof.
  split.
  - exact (proj1 (inflect_suffix_and_escape Example.os "my file")).
  - reflexivity.
Defined.

End Inflection.

(* ================================================================= *)
(** ** Failures *)

Section Failures.

Import Completer.

(** C1: [get_matches] never returns [None]: the call guarded by its
    [try] only creates a generator.  With a malformed exclusion rule and
    a candidate to test, [re.error] leaves [get_matches], and [complete]
    after it. *)
Theorem get_matches_malformed_rule_raises :
  (forall os re self word, get_matches os re self word <> Returned None)
  /\ Re.compile Re.fragment "*" = None
  /\ get_matches Example.os Re.fragment Example.misconfigured "" =
     Raised re_error
  /\ complete Example.os Re.fragment Example.misconfigured "" 0 =
     Raised re_error.
Proof.
  split; [|split; [|split]]; try reflexivity.
  intros os re self word. rewrite get_matches_unfold.
  destruct (list_of _); discriminate.
Qed.

(** C2 as stated fails: the directory [nodir] cannot be listed, and
    [get_matches] does not return for the word [nodir/x]. *)
Lemma get_matches_unlistable_directory_does_not_return :
  startswith "nodir/x" "$" = false /\
  listdir Example.os "nodir" = Raised OSError /\
  ~ exists r,
      get_matches Example.os Re.fragment Example.completer "nodir/x" =
      Returned r.
Proof.
  split; [reflexivity|split; [reflexivity|]].
  intros [r H]. vm_compute in H. discriminate.
Qed.

(** C2 (amended): for a word that does not begin with [$] and whose
    directory component cannot be listed, the filesystem generator
    yields no candidate, and the error of the listing is raised when
    [gen_matches] is iterated and leaves [get_matches] too. *)
Theorem gen_matches_unlistable_directory (os : system) (re : Re.engine)
        (self : t) (word : string) (e : exn) :
  startswith word "$" = false ->
  listdir os (let head := fst (PosixPath.split word) in
              if truthy head then head else ".") = Raised e ->
  gen_matches os self word = Raise e
  /\ list_of (gen_matches os self word) = Raised e
  /\ get_matches os re self word = Raised e.
Proof.
  intros Hw Hl.
  assert (G : gen_matches os self word = Raise e).
  { unfold gen_matches. rewrite Hw.
    destruct (PosixPath.split word) as [head tail]. simpl in Hl.
    now rewrite Hl. }
  split; [exact G|split]; try rewrite get_matches_unfold;
    rewrite G; reflexivity.
Qed.

Lemma gen_matches_unlistable_directory_witness :
  startswith "nodir/x" "$" = false /\
  get_matches Example.os Re.fragment Example.completer "nodir/x" =
  Raised OSError.
Proof.
  split; [reflexivity|].
  exact (proj2 (proj2 (gen_matches_unlistable_directory
                         Example.os Re.fragment Example.completer
                         "nodir/x" eq_refl eq_refl))).
Defined.

End Failures.

(* ================================================================= *)
(** ** The transform pipeline *)

Section Pipeline.

Import Transform.

Lemma run_app (f g : list (string -> outcome string)) (s : string) :
  run (f ++ g) s = bind (run f s) (run g).
Proof.
  revert s. induction f as [|h f IH]; intros s; simpl; [reflexivity|].
  destruct (h s); simpl; [apply IH|reflexivity].
Qed.

Lemma transform_inverts (T : list transformation) :
  Forall Spec.invertible T ->
  forall w w',
    transform w T false = Returned w' -> transform w' T true = Returned w.
Proof.
  unfold transform. induction 1 as [|t T Ht _ IH]; intros w w' H; simpl in *.
  - congruence.
  - destruct (forward t w) as [y|] eqn:F; simpl in H; [|discriminate].
    rewrite map_app, run_app, (IH _ _ H). simpl.
    now rewrite (Ht _ _ F).
Qed.

End Pipeline.

(* ================================================================= *)
(** ** [complete] *)

Section Complete.

Import Completer.

Lemma nth_error_last {A} (l : list A) (d : A) :
  l <> [] -> nth_error l (length l - 1) = Some (last l d).
Proof.
  induction l as [|a l IH]; intros Hne; [contradiction|].
  destruct l as [|b l]; [reflexivity|].
  change (last (a :: b :: l) d) with (last (b :: l) d).
  rewrite <- IH by discriminate.
  simpl. now rewrite Nat.sub_0_r.
Qed.

Lemma getitem_last {A} (l : list A) (d : A) :
  l <> [] ->
  getitem l (Z.of_nat (length l) - 1) = Returned (last l d).
Proof.
  intros Hne. unfold getitem.
  assert (0 < length l) by (destruct l; [contradiction|simpl; lia]).
  destruct (Z.ltb_spec (Z.of_nat (length l) - 1) 0) as [Hlt|_]; [lia|].
  destruct (Z.ltb_spec (Z.of_nat (length l) - 1) 0) as [Hlt|_]; [lia|].
  replace (Z.to_nat (Z.of_nat (length l) - 1)) with (length l - 1) by lia.
  now rewrite (nth_error_last d Hne).
Qed.

Lemma getitem_beyond {A} (l : list A) (state : Z) :
  (Z.of_nat (length l) <= state)%Z -> getitem l state = Raised IndexError.
Proof.
  intros H. unfold getitem.
  destruct (Z.ltb_spec state 0) as [Hlt|_]; [lia|].
  destruct (Z.ltb_spec state 0) as [Hlt|_]; [lia|].
  destruct (nth_error l (Z.to_nat state)) eqn:E; [|reflexivity].
  assert (nth_error l (Z.to_nat state) <> None) as N by congruence.
  apply nth_error_Some in N. lia.
Qed.

(** [complete] once the word is transformed and its matches are known. *)
Lemma complete_unfold (os : system) (re : Re.engine) (self : t)
      (word word' : string) (l : list string) (state : Z) :
  Transform.transform word (transforms self) false = Returned word' ->
  get_matches os re self word' = Returned (Some l) ->
  complete os re self word state =
  except_IndexError
    (bind (getitem l state) (fun match_ =>
     bind (Transform.transform match_ (transforms self) true)
          (fun r => Returned (Some r)))).
Proof.
  intros Hw Hm. unfold complete. rewrite Hw. simpl. now rewrite Hm.
Qed.

(** C5: when the transformed word has [k >= 1] matches, [complete] at
    state [k - 1] returns the last match transformed back, and at every
    state from [k] on it returns [None]. *)
Theorem complete_state_exhaustion (os : system) (re : Re.engine)
        (self : t) (word word' : string) (l : list string) :
  Transform.transform word (transforms self) false = Returned word' ->
  get_matches os re self word' = Returned (Some l) ->
  l <> [] ->
  (forall back,
      Transform.transform (last l "") (transforms self) true
      = Returned back ->
      complete os re self word (Z.of_nat (length l) - 1)
      = Returned (Some back))
  /\
  (forall state,
      (Z.of_nat (length l) <= state)%Z ->
      complete os re self word state = Returned None).
Proof.
  intros Hw Hm Hne. split.
  - intros back Hb.
    rewrite (complete_unfold _ _ _ _ _ Hw Hm).
    rewrite (getitem_last "" Hne). cbn [bind]. now rewrite Hb.
  - intros state Hs.
    rewrite (complete_unfold _ _ _ _ _ Hw Hm).
    now rewrite (getitem_beyond _ Hs).
Qed.

Lemma complete_state_exhaustion_witness :
  get_matches Example.os Re.fragment Example.completer "" =
  Returned (Some ["main.c "; "README "]) /\
  complete Example.os Re.fragment Example.completer "" 1 =
  Returned (Some "README "%string) /\
  complete Example.os Re.fragment Example.completer "" 2 = Returned None.
Proof.
  assert (Hm : get_matches Example.os Re.fragment Example.completer "" =
               Returned (Some ["main.c "; "README "])) by reflexivity.
  assert (Hne : ["main.c "; "README "] <> @nil string) by discriminate.
  pose proof (@complete_state_exhaustion
                Example.os Re.fragment Example.completer "" ""
                ["main.c "; "README "] eq_refl Hm Hne) as [Hlast Hend].
  split; [exact Hm|split].
  - exact (Hlast "README "%string eq_refl).
  - apply Hend. simpl. lia.
Defined.

(** C9: over a pipeline of invertible transforms, transforming a word
    forward and then backward gives the word back; hence, when the match
    [complete] selects is the forward image of a text, [complete]
    returns that text. *)
Theorem transform_round_trip (T : list Transform.transformation) :
  Forall Spec.invertible T ->
  (forall w w',
      Transform.transform w T false = Returned w' ->
      Transform.transform w' T true = Returned w)
  /\
  (forall os re self word word' l state match_ surface,
      transforms self = T ->
      Transform.transform word T false = Returned word' ->
      get_matches os re self word' = Returned (Some l) ->
      getitem l state = Returned match_ ->
      Transform.transform surface T false = Returned match_ ->
      complete os re self word state = Returned (Some surface)).
Proof.
  intros HT. split; [exact (transform_inverts HT)|].
  intros os re self word word' l state m surface <- Hw Hm Hg Hs.
  rewrite (complete_unfold _ _ _ _ _ Hw Hm), Hg. cbn [bind].
  now rewrite (transform_inverts HT _ Hs).
Qed.

Lemma mark_invertible (c : ascii) : Spec.invertible (Example.mark c).
Proof.
  intros x y H. simpl in *. injection H as <-.
  now rewrite Ascii.eqb_refl.
Qed.

Lemma transform_round_trip_witness :
  Forall Spec.invertible Example.pipeline /\
  Transform.transform "x" Example.pipeline false = Returned "bax"%string /\
  Transform.transform "bax" Example.pipeline true = Returned "x"%string.
Proof.
  assert (HT : Forall Spec.invertible Example.pipeline)
    by (repeat constructor; apply mark_invertible).
  split; [exact HT|split; [reflexivity|]].
  exact (proj1 (transform_round_trip HT) "x"%string "bax"%string eq_refl).
Defined.

End Complete.


(* ================================================================= *)
(** ** Further properties of the filename generator *)

Section FilenamesMore.

Import Completer.

Lemma startswith_contains (s w : string) :
  startswith s w = true -> contains s w = true.
Proof. intros H. destruct s; simpl; now rewrite H. Qed.

Lemma filter_nil_iff {A} (test : A -> bool) (l : list A) :
  filter test l = [] <-> forall a, In a l -> test a = false.
Proof.
  induction l as [|a l IH]; simpl.
  - split; [intros _ x []|reflexivity].
  - destruct (test a) eqn:E.
    + split; [discriminate|]. intros H. rewrite (H a) in E by auto.
      discriminate.
    + rewrite IH. split.
      * intros H x [<-|Hx]; auto.
      * intros H x Hx. apply H. now right.
Qed.

Lemma filter_idem {A} (test : A -> bool) (l : list A) :
  filter test (filter test l) = filter test l.
Proof.
  induction l as [|a l IH]; simpl; [reflexivity|].
  destruct (test a) eqn:E; simpl; [rewrite E|]; congruence.
Qed.

Lemma filter_comm {A} (p q : A -> bool) (l : list A) :
  filter p (filter q l) = filter q (filter p l).
Proof.
  induction l as [|a l IH]; simpl; [reflexivity|].
  destruct (p a) eqn:P, (q a) eqn:Q; simpl; rewrite ?P, ?Q; congruence.
Qed.

(** The test an entry passes in the prefix phase. *)
Lemma prefix_phase_filter (word : string) (filenames : list string) :
  exists test,
    Spec.prefix_phase word filenames = filter test filenames /\
    (forall l, Spec.prefix_phase word l = filter test l) /\
    forall f, test f = true -> contains f word = true.
Proof.
  unfold Spec.prefix_phase. destruct word as [|c w]; cbn [truthy].
  - exists (fun entry => negb (startswith entry ".")).
    repeat split; auto. intros f _. apply contains_empty.
  - exists (fun entry => startswith entry (String c w)).
    repeat split; auto. intros f. apply startswith_contains.
Qed.

(** X1: the filename generator yields only entries of the listing, and
    only entries that contain the fragment. *)
Theorem gen_filename_completions_sound (word : string)
        (filenames : list string) (f : string) :
  In f (gen_filename_completions word filenames) ->
  In f filenames /\ contains f word = true.
Proof.
  rewrite gen_filename_completions_phases.
  destruct (prefix_phase_filter word filenames) as (test & E & _ & Ht).
  rewrite E. destruct (filter test filenames) as [|y ys] eqn:F.
  - unfold Spec.substring_phase. intros H.
    apply filter_In in H. exact H.
  - rewrite <- F. intros H. apply filter_In in H as [Hin Hf]. auto.
Qed.

Lemma gen_filename_completions_sound_witness :
  In "banana" (gen_filename_completions "an" ["apple"; "banana"; "grape"])
  /\ In "banana" ["apple"; "banana"; "grape"]
  /\ contains "banana" "an" = true.
Proof.
  assert (H : In "banana" (gen_filename_completions
                             "an" ["apple"; "banana"; "grape"]))
    by (left; reflexivity).
  split; [exact H|].
  exact (gen_filename_completions_sound "an"
           ["apple"; "banana"; "grape"] "banana" H).
Defined.

(** X2: the filename generator yields nothing exactly when no entry of
    the listing contains the fragment. *)
Theorem gen_filename_completions_nil_iff (word : string)
        (filenames : list string) :
  gen_filename_completions word filenames = [] <->
  forall f, In f filenames -> contains f word = false.
Proof.
  rewrite gen_filename_completions_phases.
  destruct (prefix_phase_filter word filenames) as (test & E & _ & Ht).
  rewrite E. destruct (filter test filenames) as [|y ys] eqn:F.
  - unfold Spec.substring_phase. apply filter_nil_iff.
  - split; [discriminate|]. intros H.
    assert (Hy : In y (filter test filenames)) by (rewrite F; now left).
    apply filter_In in Hy as [Hin Hy].
    specialize (H y Hin). rewrite (Ht _ Hy) in H. discriminate.
Qed.

(** X3: running the filename generator on its own output changes
    nothing. *)
Theorem gen_filename_completions_idempotent (word : string)
        (filenames : list string) :
  gen_filename_completions word (gen_filename_completions word filenames) =
  gen_filename_completions word filenames.
Proof.
  rewrite !gen_filename_completions_phases.
  destruct (prefix_phase_filter word filenames) as (test & _ & E & _).
  rewrite !E. unfold Spec.substring_phase.
  destruct (filter test filenames) as [|y ys] eqn:F.
  - rewrite filter_comm, F. simpl. apply filter_idem.
  - rewrite <- F, filter_idem, F. reflexivity.
Qed.

End FilenamesMore.

(* ================================================================= *)
(** ** Further properties of exclusion and of [get_matches] *)

Section ExclusionMore.

Import Completer.

Context (re : Re.engine).

Lemma list_of_exclude_matches (self : t) (g : generator string) :
  Forall (Spec.well_formed re) (exclude_patterns self) ->
  list_of (exclude_matches re self g) =
  bind (list_of g)
       (fun l => Returned (filter (Spec.survives re (exclude_patterns self)) l)).
Proof.
  intros WF. unfold exclude_matches.
  induction g as [|c g IH|e]; simpl; try reflexivity.
  rewrite (excluded_well_formed c WF).
  destruct (Spec.survives re (exclude_patterns self) c) eqn:E; simpl;
    rewrite IH; destruct (list_of g); simpl; rewrite ?E; reflexivity.
Qed.

(** X4: over well-formed rules, [get_matches] is generation, then the
    exclusion filter, then inflection when [use_suffix] is on; an error
    raised during generation is raised by [get_matches]. *)
Theorem get_matches_pipeline (os : system) (self : t) (word : string) :
  Forall (Spec.well_formed re) (exclude_patterns self) ->
  get_matches os re self word =
  bind (list_of (gen_matches os self word)) (fun candidates =>
    let kept :=
      filter (Spec.survives re (exclude_patterns self)) candidates in
    Returned (Some (if use_suffix self then map (inflect os) kept
                    else kept))).
Proof.
  intros WF. rewrite get_matches_unfold.
  rewrite list_of_exclude_matches by exact WF.
  destruct (list_of (gen_matches os self word)); reflexivity.
Qed.

(** X5: a candidate matched by a rule after rules that do not match it
    is dropped without the later rules being looked at: whatever follows
    the matching rule, malformed rules included, the filter yields
    nothing for such candidates and does not raise. *)
Theorem exclude_matches_stops_at_first_match (self : t)
        (before after : list string) (rule : string)
        (candidates : list string) :
  exclude_patterns self = before ++ rule :: after ->
  Forall (fun c =>
            Forall (fun r => Re.match_ re r c = Returned false) before /\
            Re.match_ re rule c = Returned true) candidates ->
  exclude_matches re self (yield_all candidates) = Stop.
Proof.
  intros E H. unfold exclude_matches. rewrite E.
  induction H as [|c cs [Hb Hr] _ IH]; simpl; [reflexivity|].
  now rewrite (@excluded_first_match re before after rule c Hb Hr).
Qed.

(** X6: without exclusion rules the filter hands on what the generator
    yields, and the error it ends with, unchanged. *)
Theorem exclude_matches_no_rules (self : t) (g : generator string) :
  exclude_patterns self = [] ->
  exclude_matches re self g = g.
Proof.
  intros E. unfold exclude_matches. rewrite E.
  induction g as [|c g IH|e]; cbn [for_each excluded chain];
    [reflexivity|f_equal; exact IH|reflexivity].
Qed.

(** X7: when the first exclusion rule is malformed, [get_matches] raises
    [re.error] as soon as generation yields one candidate, and returns
    the empty list when generation yields none. *)
Theorem get_matches_malformed_first_rule (os : system) (self : t)
        (word rule : string) (rules : list string) :
  Re.compile re rule = None ->
  exclude_patterns self = rule :: rules ->
  (forall c g, gen_matches os self word = Yield c g ->
               get_matches os re self word = Raised re_error) /\
  (gen_matches os self word = Stop ->
   get_matches os re self word = Returned (Some [])).
Proof.
  intros Hc E. split.
  - intros c g G. rewrite get_matches_unfold, G.
    unfold exclude_matches. rewrite E. simpl.
    unfold Re.match_. now rewrite Hc.
  - intros G. rewrite get_matches_unfold, G. simpl.
    now destruct (use_suffix self).
Qed.

End ExclusionMore.

Lemma get_matches_pipeline_witness :
  Forall (Spec.well_formed Re.fragment)
         (Completer.exclude_patterns Example.completer) /\
  Completer.get_matches Example.os Re.fragment Example.completer "m" =
  Returned (Some ["main.c "]).
Proof.
  assert (WF : Forall (Spec.well_formed Re.fragment)
                      (Completer.exclude_patterns Example.completer))
    by (repeat constructor; discriminate).
  split; [exact WF|].
  exact (get_matches_pipeline Example.os Example.completer "m" WF).
Defined.

Lemma exclude_matches_stops_at_first_match_witness :
  Completer.exclude_matches Re.fragment
    (Completer.init [] true (Some ["x"; ".*\.o"; "*"]) None)
    (yield_all ["main.o"; "side.o"]) = Stop.
Proof.
  apply (@exclude_matches_stops_at_first_match Re.fragment
           (Completer.init [] true (Some ["x"; ".*\.o"; "*"]) None)
           ["x"] ["*"] ".*\.o" ["main.o"; "side.o"] eq_refl).
  repeat constructor.
Defined.

Lemma exclude_matches_no_rules_witness :
  Completer.exclude_matches Re.fragment (Completer.init [] true None None)
    (Yield "a" (Yield "b" (Raise OSError))) =
  Yield "a" (Yield "b" (Raise OSError)).
Proof.
  apply (@exclude_matches_no_rules Re.fragment
           (Completer.init [] true None None)). reflexivity.
Defined.

Lemma get_matches_malformed_first_rule_witness :
  Re.compile Re.fragment "*" = None /\
  Completer.get_matches Example.os Re.fragment Example.misconfigured "m" =
  Raised re_error.
Proof.
  split; [reflexivity|].
  apply (proj1 (@get_matches_malformed_first_rule
                  Re.fragment Example.os Example.misconfigured
                  "m" "*" [] eq_refl eq_refl)
           "main.c" (yield_all ["main.c~"; "main.o"])).
  reflexivity.
Defined.

(* ================================================================= *)
(** ** Further properties of [complete] *)

Section CompleteMore.

Import Completer.

Lemma getitem_nth {A} (l : list A) (d : A) (i : nat) :
  i < length l -> getitem l (Z.of_nat i) = Returned (nth i l d).
Proof.
  intros H. unfold getitem.
  destruct (Z.ltb_spec (Z.of_nat i) 0) as [Hlt|_]; [lia|].
  destruct (Z.ltb_spec (Z.of_nat i) 0) as [Hlt|_]; [lia|].
  rewrite Nat2Z.id. now rewrite (nth_error_nth' l d H).
Qed.

Lemma getitem_negative {A} (l : list A) (i : Z) :
  (i < 0)%Z ->
  getitem l i =
  if (i + Z.of_nat (length l) <? 0)%Z then Raised IndexError
  else getitem l (i + Z.of_nat (length l)).
Proof.
  intros H. unfold getitem.
  destruct (Z.ltb_spec i 0) as [_|Hge]; [|lia].
  destruct (Z.ltb_spec (i + Z.of_nat (length l)) 0) as [Hlt|Hge];
    [reflexivity|].
  destruct (Z.ltb_spec (i + Z.of_nat (length l)) 0) as [Hlt|_]; [lia|].
  reflexivity.
Qed.

(** X8: [complete] indexes the match list the way Python does: a
    negative state from [-k] on counts from the end of the [k] matches,
    and a state below [-k] gives [None]. *)
Theorem complete_negative_state (os : system) (re : Re.engine) (self : t)
        (word word' : string) (l : list string) (state : Z) :
  Transform.transform word (transforms self) false = Returned word' ->
  get_matches os re self word' = Returned (Some l) ->
  (state < 0)%Z ->
  complete os re self word state =
  if (state + Z.of_nat (length l) <? 0)%Z then Returned None
  else complete os re self word (state + Z.of_nat (length l)).
Proof.
  intros Hw Hm Hs.
  rewrite !(complete_unfold _ _ _ _ _ Hw Hm), (getitem_negative l Hs).
  now destruct (state + Z.of_nat (length l) <? 0)%Z.
Qed.

Lemma complete_negative_state_witness :
  complete Example.os Re.fragment Example.completer "" (-1) =
  Returned (Some "README "%string) /\
  complete Example.os Re.fragment Example.completer "" (-3) = Returned None.
Proof.
  assert (Hm : get_matches Example.os Re.fragment Example.completer "" =
               Returned (Some ["main.c "; "README "])) by reflexivity.
  split.
  - exact (@complete_negative_state
             Example.os Re.fragment Example.completer "" ""
             ["main.c "; "README "] (-1) eq_refl Hm eq_refl).
  - exact (@complete_negative_state
             Example.os Re.fragment Example.completer "" ""
             ["main.c "; "README "] (-3) eq_refl Hm eq_refl).
Defined.

(** X9: errors in [complete].  An error of the forward transform is
    raised, [IndexError] included, since that call is outside the [try];
    an error of [get_matches] is raised unless it is an [IndexError],
    which is turned into [None]. *)
Theorem complete_errors (os : system) (re : Re.engine) (self : t)
        (word : string) (state : Z) (e : exn) :
  (Transform.transform word (transforms self) false = Raised e ->
   complete os re self word state = Raised e) /\
  (forall word',
      Transform.transform word (transforms self) false = Returned word' ->
      get_matches os re self word' = Raised e ->
      complete os re self word state =
      if is_IndexError e then Returned None else Raised e).
Proof.
  split.
  - intros H. unfold complete. now rewrite H.
  - intros word' Hw Hm. unfold complete. rewrite Hw. cbn [bind].
    now rewrite Hm.
Qed.

Lemma complete_errors_witness :
  complete Example.os Re.fragment Example.completer "nodir/x" 0 =
  Raised OSError /\
  complete Example.os Re.fragment
           (init [] true None (Some [fun _ => Raise IndexError])) "" 0 =
  Returned None.
Proof.
  split.
  - exact (proj2 (complete_errors Example.os Re.fragment Example.completer
                                  "nodir/x" 0 OSError)
                 "nodir/x"%string eq_refl eq_refl).
  - exact (proj2 (complete_errors
                    Example.os Re.fragment
                    (init [] true None (Some [fun _ => Raise IndexError]))
                    "" 0 IndexError)
                 ""%string eq_refl eq_refl).
Defined.

(** X10: without transforms, asking [complete] for the states
    [0, 1, ..., k - 1] returns the [k] matches of the word in order. *)
Theorem complete_enumerates (os : system) (re : Re.engine) (self : t)
        (word : string) (l : list string) :
  transforms self = [] ->
  get_matches os re self word = Returned (Some l) ->
  map (fun i => complete os re self word (Z.of_nat i)) (seq 0 (length l)) =
  map (fun m => Returned (Some m)) l.
Proof.
  intros HT Hm.
  assert (Hw : Transform.transform word (transforms self) false =
               Returned word) by now rewrite HT.
  apply nth_error_ext. intros n.
  rewrite !nth_error_map.
  destruct (Nat.lt_ge_cases n (length l)) as [Hn|Hn].
  - rewrite nth_error_seq.
    destruct (Nat.ltb_spec n (length l)) as [_|]; [|lia]. simpl.
    rewrite (nth_error_nth' l ""%string Hn). simpl. f_equal.
    rewrite (complete_unfold _ _ _ _ _ Hw Hm).
    rewrite (getitem_nth l ""%string Hn). cbn [bind].
    now rewrite HT.
  - replace (nth_error (seq 0 (length l)) n) with (@None nat)
      by (symmetry; apply nth_error_None; rewrite length_seq; exact Hn).
    replace (nth_error l n) with (@None string)
      by (symmetry; apply nth_error_None; exact Hn).
    reflexivity.
Qed.

Lemma complete_enumerates_witness :
  map (fun i => complete Example.os Re.fragment Example.completer ""
                         (Z.of_nat i)) [0; 1] =
  [Returned (Some "main.c "%string); Returned (Some "README "%string)].
Proof.
  exact (@complete_enumerates Example.os Re.fragment Example.completer
                              "" ["main.c "; "README "] eq_refl eq_refl).
Defined.

End CompleteMore.

(* ================================================================= *)
(** ** Further properties of generation and inflection *)

Section GenerationMore.

Import Completer.

(** X11: every variable completion of a word that begins with [$]
    begins with that word. *)
Theorem gen_variable_completions_extend_word (word : string)
        (env : list (string * string)) (m : string) :
  startswith word "$" = true ->
  In m (gen_variable_completions word env) ->
  startswith m word = true.
Proof.
  intros Hw Hin. unfold gen_variable_completions in Hin.
  rewrite gen_variable_completions_keys_filter in Hin.
  apply in_map_iff in Hin as (k & <- & Hk).
  apply filter_In in Hk as [_ Hk].
  destruct word as [|c var]; [discriminate|].
  cbn [startswith] in Hw. rewrite andb_true_r in Hw.
  apply Ascii.eqb_eq in Hw. subst c.
  cbn [drop_first] in Hk. cbn [String.append startswith].
  now rewrite Ascii.eqb_refl, Hk.
Qed.

Lemma gen_variable_completions_extend_word_witness :
  In "$HOSTNAME"%string
     (gen_variable_completions "$HO" (environ Example.os)) /\
  startswith "$HOSTNAME" "$HO" = true.
Proof.
  assert (H : In "$HOSTNAME"%string
                 (gen_variable_completions "$HO" (environ Example.os)))
    by (right; left; reflexivity).
  split; [exact H|].
  exact (@gen_variable_completions_extend_word
           "$HO" (environ Example.os) "$HOSTNAME" eq_refl H).
Defined.

Lemma cut_no_sep (p : string) :
  contains p "/" = false ->
  PosixPath.cut_after_last_sep p = (""%string, p).
Proof.
  induction p as [|c p IH]; [reflexivity|].
  intros H. cbn [contains] in H.
  apply orb_false_iff in H as [Hc Hp].
  cbn [PosixPath.cut_after_last_sep]. rewrite (IH Hp). cbn [truthy].
  simpl in Hc. rewrite andb_true_r in Hc.
  unfold PosixPath.sep. now rewrite Hc.
Qed.

Lemma split_no_sep (p : string) :
  contains p "/" = false -> PosixPath.split p = (""%string, p).
Proof.
  intros H. unfold PosixPath.split. now rewrite (cut_no_sep p H).
Qed.

Lemma join_empty_head (m : string) : PosixPath.join "" m = m.
Proof. unfold PosixPath.join. now destruct (startswith m "/"). Qed.

(** X12: for a word without [$] at its start and without [/], the
    current directory is listed and [gen_matches] yields the entries the
    filename generator selects, as they are, followed by the candidates
    of the extensions in their order. *)
Theorem gen_matches_plain_word (os : system) (self : t) (word : string)
        (filenames : list string) :
  startswith word "$" = false ->
  contains word "/" = false ->
  listdir os "." = Returned filenames ->
  gen_matches os self word =
  chain (yield_all (gen_filename_completions word filenames))
        (for_list (extensions self) (fun extension => extension word)).
Proof.
  intros Hd Hs Hl. unfold gen_matches.
  rewrite Hd, (split_no_sep word Hs). cbn [truthy]. rewrite Hl.
  f_equal.
  - rewrite for_list_yield.
    rewrite (map_ext _ (fun m => m) join_empty_head). now rewrite map_id.
  - apply for_list_ext. intros ext. apply for_each_reyield.
Qed.

Lemma gen_matches_plain_word_witness :
  gen_matches Example.os
              (init [] true None (Some [fun w => Yield (w ++ "!")%string Stop]))
              "REA" =
  yield_all ["README"; "REA!"].
Proof.
  exact (@gen_matches_plain_word
           Example.os
           (init [] true None (Some [fun w => Yield (w ++ "!")%string Stop]))
           "REA" ["main.c"; "main.c~"; "main.o"; "README"]
           eq_refl eq_refl eq_refl).
Defined.

Lemma _escape_not_space (s t : string) : _escape s <> String " " t.
Proof.
  unfold _escape. destruct s as [|c s]; simpl; [discriminate|].
  destruct (Ascii.eqb c " ") eqn:E; simpl; [discriminate|].
  intros H. injection H as Hc _. subst c. discriminate.
Qed.

(** X13: [_escape] maps different names to different strings. *)
Theorem _escape_injective (a b : string) :
  _escape a = _escape b -> a = b.
Proof.
  revert b. induction a as [|c a IH]; intros [|d b] H.
  - reflexivity.
  - unfold _escape in H. simpl in H.
    destruct (Ascii.eqb d " "); discriminate.
  - unfold _escape in H. simpl in H.
    destruct (Ascii.eqb c " "); discriminate.
  - assert (Hc : _escape (String c a) =
                 ((if Ascii.eqb c " " then "\ " else String c "")
                    ++ _escape a)%string).
    { unfold _escape. simpl. now destruct (Ascii.eqb c " "). }
    assert (Hd : _escape (String d b) =
                 ((if Ascii.eqb d " " then "\ " else String d "")
                    ++ _escape b)%string).
    { unfold _escape. simpl. now destruct (Ascii.eqb d " "). }
    rewrite Hc, Hd in H.
    destruct (Ascii.eqb_spec c " ") as [->|Nc],
             (Ascii.eqb_spec d " ") as [->|Nd]; simpl in H.
    + injection H as H. f_equal. now apply IH.
    + injection H as <- H. symmetry in H.
      now apply _escape_not_space in H.
    + injection H as -> H. now apply _escape_not_space in H.
    + injection H as -> H. f_equal. now apply IH.
Qed.

Lemma _escape_injective_witness :
  _escape "a b" = "a\ b"%string /\ "a b"%string = "a b"%string.
Proof.
  split; [reflexivity|].
  exact (@_escape_injective "a b" "a b" eq_refl).
Defined.

(** X14: the suffix toggle changes no candidate and no error: with
    [use_suffix] on, [get_matches] returns the list it returns with
    [use_suffix] off, each element inflected. *)
Theorem get_matches_suffix_toggle (os : system) (re : Re.engine)
        (transforms : list Transform.transformation)
        (exclude : list string)
        (extensions : list (string -> generator string)) (word : string) :
  get_matches os re
    {| Completer.transforms := transforms; use_suffix := true;
       exclude_patterns := exclude; Completer.extensions := extensions |}
    word =
  bind (get_matches os re
          {| Completer.transforms := transforms; use_suffix := false;
             exclude_patterns := exclude;
             Completer.extensions := extensions |}
          word)
       (fun r => Returned (option_map (map (inflect os)) r)).
Proof.
  rewrite !get_matches_unfold. cbn [use_suffix].
  unfold exclude_matches, gen_matches. cbn [exclude_patterns Completer.extensions].
  match goal with |- context [list_of ?g] => destruct (list_of g) end;
    reflexivity.
Qed.

End GenerationMore.

(* ================================================================= *)
(** ** [make_completer] *)

Section MakeCompleter.

Import Setup.

Lemma replace_char_remove (s : string) (c : ascii) :
  list_ascii_of_string (replace_char s c "") =
  filter (fun d => negb (Ascii.eqb d c)) (list_ascii_of_string s).
Proof.
  induction s as [|d s IH]; simpl; [reflexivity|].
  destruct (Ascii.eqb d c); simpl; now rewrite IH.
Qed.

Lemma filter_filter_and {A} (p q : A -> bool) (l : list A) :
  filter p (filter q l) = filter (fun a => q a && p a) l.
Proof.
  induction l as [|a l IH]; simpl; [reflexivity|].
  destruct (q a); simpl; [destruct (p a)|]; now rewrite IH.
Qed.

(** X15: when [rl] cannot be imported [make_completer] returns no
    completer: it returns [None] if [PYTHONPATH] is set and raises
    [KeyError] if it is not. *)
Theorem make_completer_without_rl (os : Completer.system)
        (transforms : list Transform.transformation) (use_suffix : bool)
        (exclude : option (list string)) :
  (forall c, fst (make_completer None os transforms use_suffix exclude)
             <> Returned (Some c)) /\
  (fst (make_completer None os transforms use_suffix exclude)
   = Raised KeyError <->
   Str.lookup (Completer.environ os) "PYTHONPATH" = None) /\
  (fst (make_completer None os transforms use_suffix exclude)
   = Returned None <->
   Str.lookup (Completer.environ os) "PYTHONPATH" <> None).
Proof.
  unfold make_completer.
  destruct (Str.lookup (Completer.environ os) "PYTHONPATH"); simpl;
    (split; [discriminate|split; split; congruence]).
Qed.

(** X16: when [rl] is there, [make_completer] returns a completer with
    the given transforms and suffix toggle, the given exclusion rules
    (none for [None]) and no extension, registers it, and takes [-], [~],
    [$] and [/] out of the word-break characters, keeping the others in
    their order. *)
Theorem make_completer_with_rl (rl : Rl.completer) (os : Completer.system)
        (transforms : list Transform.transformation) (use_suffix : bool)
        (exclude : option (list string)) :
  exists completer rl',
    make_completer (Some rl) os transforms use_suffix exclude =
    (Returned (Some completer), Some rl') /\
    Completer.transforms completer = transforms /\
    Completer.use_suffix completer = use_suffix /\
    Completer.exclude_patterns completer =
      match exclude with Some l => l | None => [] end /\
    Completer.extensions completer = [] /\
    Rl.registered rl' = Some completer /\
    list_ascii_of_string (Rl.word_break_characters rl') =
    filter (fun c => negb (existsb (Ascii.eqb c) ["-"; "~"; "$"; "/"]%char))
           (list_ascii_of_string (Rl.word_break_characters rl)).
Proof.
  eexists. eexists. split; [reflexivity|].
  repeat (split; [reflexivity|]).
  cbn [Rl.word_break_characters].
  rewrite !replace_char_remove, !filter_filter_and.
  apply filter_ext. intros c. cbn [existsb].
  destruct (Ascii.eqb c "-"), (Ascii.eqb c "~"), (Ascii.eqb c "$"),
    (Ascii.eqb c "/"); reflexivity.
Qed.

End MakeCompleter.

(* ================================================================= *)
(** ** Reading a command *)

Section CliRead.

Import Cli Str.

Context {S : Type} (self : Cli.t S).

Lemma endswith_char_snoc (l : string) (c : ascii) :
  endswith_char (l ++ String c "") c = true.
Proof.
  induction l as [|d l IH]; simpl; [apply Ascii.eqb_refl|].
  destruct (l ++ String c "")%string eqn:E; [|exact IH].
  destruct l; discriminate.
Qed.

Lemma drop_last_snoc (l : string) (c : ascii) :
  drop_last (l ++ String c "") = l.
Proof.
  induction l as [|d l IH]; simpl; [reflexivity|].
  destruct (l ++ String c "")%string eqn:E.
  - destruct l; discriminate.
  - now rewrite IH.
Qed.

Lemma append_assoc (a b c : string) :
  ((a ++ b) ++ c = a ++ (b ++ c))%string.
Proof. induction a as [|x a IH]; simpl; congruence. Qed.

Lemma read_continuation_done (pending : list string) (line : string)
      (written : list string) :
  endswith_char line "\" = false ->
  read_continuation self pending line written =
  (Returned line, (pending, written)).
Proof. intros H. destruct pending; simpl; now rewrite H. Qed.

Lemma read_continuation_joins (parts : list string) :
  forall (acc last : string) (rest written : list string),
    endswith_char (acc ++ fold_right String.append last parts) "\" = false ->
    read_continuation self
      (map (fun l => (l ++ "\")%string) parts ++ last :: rest)
      (acc ++ "\") written =
    (Returned (acc ++ fold_right String.append last parts)%string,
     (rest,
      written ++
      repeat (secondary_prompt_string self) (Datatypes.S (length parts)))).
Proof.
  induction parts as [|p parts IH]; intros acc last rest written H;
    cbn [map app fold_right length read_continuation] in *;
    rewrite endswith_char_snoc, drop_last_snoc.
  - now rewrite read_continuation_done by exact H.
  - rewrite <- !append_assoc. rewrite <- append_assoc in H.
    rewrite IH by exact H. cbn [repeat].
    now rewrite <- app_assoc.
Qed.

(** X17: [read] joins continuation lines.  When the lines typed are
    [parts], each followed by a backslash, and then a line [last], and the
    joined text does not end in a backslash, [read] returns the parts and
    [last] joined without the backslashes, leaves the lines after [last]
    unread, and has written the primary prompt once and the secondary
    prompt once for each continuation. *)
Theorem read_joins_continuations (c : console) (parts : list string)
        (last : string) (rest : list string) :
  stdin c = map (fun l => (l ++ "\")%string) parts ++ last :: rest ->
  endswith_char (fold_right String.append last parts) "\" = false ->
  read self c =
  (Returned (fold_right String.append last parts),
   {| stdin := rest;
      stdout := stdout c ++ primary_prompt_string self
                  :: repeat (secondary_prompt_string self) (length parts);
      stderr := stderr c |}).
Proof.
  intros Hin Hend. unfold read, raw_input. cbn [write_stdout stdin].
  rewrite Hin. destruct parts as [|p parts]; cbn [map app fold_right].
  - cbn [stdin stdout stderr fold_right] in *.
    rewrite read_continuation_done by exact Hend. cbn [repeat length].
    reflexivity.
  - cbn [stdin stdout stderr fold_right] in *.
    rewrite read_continuation_joins by exact Hend.
    cbn [except_EOFError length repeat]. unfold write_stdout.
    cbn [stdout stderr]. rewrite <- app_assoc. reflexivity.
Qed.

(** X18: at the end of the input [read] raises [SystemExit]: when the
    lines typed all end in a backslash (or there is none), the text read
    so far is dropped, and a prompt was written for each line and for the
    missing one. *)
Theorem read_end_of_input (c : console) (parts : list string) :
  stdin c = map (fun l => (l ++ "\")%string) parts ->
  read self c =
  (Raised SystemExit,
   {| stdin := [];
      stdout := stdout c ++ primary_prompt_string self
                  :: repeat (secondary_prompt_string self) (length parts);
      stderr := stderr c |}).
Proof.
  intros Hin. unfold read, raw_input, write_stdout.
  cbn [stdin stdout stderr]. rewrite Hin.
  destruct parts as [|p parts]; cbn [map]; [reflexivity|].
  cbn [stdin stdout stderr].
  assert (G : forall ps line written,
             read_continuation self
               (map (fun l => (l ++ "\")%string) ps) (line ++ "\") written =
             (Raised EOFError,
              ([], written ++
                   repeat (secondary_prompt_string self)
                          (Datatypes.S (length ps))))).
  { induction ps as [|q ps IH]; intros line written;
      cbn [map read_continuation]; rewrite endswith_char_snoc.
    - reflexivity.
    - rewrite drop_last_snoc, <- append_assoc, IH. cbn [repeat length].
      now rewrite <- app_assoc. }
  rewrite G. cbn [except_EOFError is_exn length repeat].
  unfold write_stdout. cbn [stdout stderr].
  rewrite <- app_assoc. reflexivity.
Qed.

End CliRead.

Lemma read_joins_continuations_witness :
  Cli.read (Cli.base [])
    {| Cli.stdin := ["uname \"; "-m"; "ls"];
       Cli.stdout := []; Cli.stderr := [] |} =
  (Returned "uname -m"%string,
   {| Cli.stdin := ["ls"]; Cli.stdout := ["$ "; "> "]; Cli.stderr := [] |}).
Proof.
  exact (@read_joins_continuations
           unit (Cli.base [])
           {| Cli.stdin := ["uname \"; "-m"; "ls"];
              Cli.stdout := []; Cli.stderr := [] |}
           ["uname "] "-m" ["ls"] eq_refl eq_refl).
Defined.

Lemma read_end_of_input_witness :
  Cli.read (Cli.base [("PS2", "... ")])
    {| Cli.stdin := ["echo \"]; Cli.stdout := []; Cli.stderr := [] |} =
  (Raised Cli.SystemExit,
   {| Cli.stdin := []; Cli.stdout := ["$ "; "... "]; Cli.stderr := [] |}).
Proof.
  exact (@read_end_of_input
           unit (Cli.base [("PS2", "... ")])
           {| Cli.stdin := ["echo \"]; Cli.stdout := []; Cli.stderr := [] |}
           ["echo "] eq_refl).
Defined.

(* ================================================================= *)
(** ** The read-eval-print loop *)

Section CliInteract.

Import Cli Str.

Context {S : Type} (self : Cli.t S) (format_exc : exn -> string).

Lemma read_single_line (c : console) (l : string) (rest : list string) :
  stdin c = l :: rest ->
  endswith_char l "\" = false ->
  read self c =
  (Returned l,
   {| stdin := rest;
      stdout := stdout c ++ [primary_prompt_string self];
      stderr := stderr c |}).
Proof.
  intros Hin Hl. unfold read, raw_input, write_stdout.
  cbn [stdin stdout stderr]. rewrite Hin. cbn [stdin stdout stderr].
  destruct rest; cbn [read_continuation]; now rewrite Hl.
Qed.

Lemma read_empty (c : console) :
  stdin c = [] ->
  read self c =
  (Raised SystemExit,
   {| stdin := [];
      stdout := stdout c ++ [primary_prompt_string self];
      stderr := stderr c |}).
Proof.
  intros Hin. unfold read, raw_input, write_stdout.
  cbn [stdin stdout stderr]. now rewrite Hin.
Qed.

Lemma read_continuation_cases (pending : list string) :
  forall (line : string) (written : list string),
    (exists l p w,
        read_continuation self pending line written = (Returned l, (p, w)) /\
        endswith_char l "\" = false /\
        length p <= length pending) \/
    (exists w,
        read_continuation self pending line written =
        (Raised EOFError, ([], w))).
Proof.
  induction pending as [|next pending IH]; intros line written;
    cbn [read_continuation];
    destruct (endswith_char line "\") eqn:E.
  - right. eauto.
  - left. exists line, [], written. auto.
  - destruct (IH (drop_last line ++ next)%string
                 (written ++ [secondary_prompt_string self]))
      as [(l & p & w & -> & Hl & Hp)|(w & ->)].
    + left. exists l, p, w. repeat split; auto. simpl. lia.
    + right. eauto.
  - left. exists line, (next :: pending), written. auto.
Qed.

(** X19: [read] either returns a line that does not end in a backslash,
    having consumed at least one typed line, or raises [SystemExit] with
    the input used up; it raises nothing else and writes nothing to
    standard error. *)
Theorem read_returns_or_exits (c : console) :
  (exists line c',
      read self c = (Returned line, c') /\
      endswith_char line "\" = false /\
      length (stdin c') < length (stdin c) /\
      stderr c' = stderr c) \/
  (exists c',
      read self c = (Raised SystemExit, c') /\
      stdin c' = [] /\
      stderr c' = stderr c).
Proof.
  unfold read, raw_input, write_stdout. cbn [stdin stdout stderr].
  destruct (stdin c) as [|first rest] eqn:Hin.
  - right. eexists. split; [reflexivity|]. cbn [stdin stderr]. auto.
  - cbn [stdin stdout stderr].
    destruct (read_continuation_cases rest first
                (stdout c ++ [primary_prompt_string self]))
      as [(l & p & w & -> & Hl & Hp)|(w & ->)].
    + left. eexists. eexists. split; [reflexivity|].
      cbn [stdin stderr length]. repeat split; auto. lia.
    + right. eexists. split; [reflexivity|]. cbn [stdin stderr]. auto.
Qed.

Lemma read_progress (c : console) :
  (exists line c',
      read self c = (Returned line, c') /\
      length (stdin c') < length (stdin c)) \/
  (exists c', read self c = (Raised SystemExit, c')).
Proof.
  destruct (stdin c) as [|first rest] eqn:Hin.
  - right. rewrite (read_empty c Hin). eauto.
  - unfold read, raw_input, write_stdout. cbn [stdin stdout stderr].
    rewrite Hin. cbn [stdin stdout stderr].
    destruct (read_continuation_cases rest first
                (stdout c ++ [primary_prompt_string self]))
      as [(l & p & w & -> & _ & Hp)|(w & ->)].
    + left. eexists. eexists. split; [reflexivity|].
      cbn [stdin length]. lia.
    + right. eexists. reflexivity.
Qed.

Lemma interact_loop_ends (fuel : nat) :
  forall (st : S) (c : console),
    length (stdin c) < fuel ->
    exists r, interact_loop self format_exc fuel st c = Some r.
Proof.
  induction fuel as [|fuel IH]; intros st c Hf; [lia|].
  cbn [interact_loop].
  destruct (read_progress c) as [(line & c' & -> & Hlt)|(c' & ->)].
  - assert (Hc : length (stdin c') < fuel) by lia.
    destruct (eval self st line) as [[[r|]|e] st'].
    + apply IH. exact Hc.
    + apply IH. exact Hc.
    + destruct (is_exn "SystemExit" e); [eauto|]. apply IH. exact Hc.
  - cbn [SystemExit is_exn]. simpl. eauto.
Qed.

Lemma interact_loop_fuel (fuel : nat) :
  forall (fuel' : nat) (st : S) (c : console),
    length (stdin c) < fuel ->
    length (stdin c) < fuel' ->
    interact_loop self format_exc fuel st c =
    interact_loop self format_exc fuel' st c.
Proof.
  induction fuel as [|fuel IH]; intros [|fuel'] st c Hf Hf'; try lia.
  cbn [interact_loop].
  destruct (read_progress c) as [(line & c' & -> & Hlt)|(c' & ->)].
  - assert (Hc : length (stdin c') < fuel) by lia.
    assert (Hc' : length (stdin c') < fuel') by lia.
    destruct (eval self st line) as [[[r|]|e] st'].
    + apply IH; assumption.
    + apply IH; assumption.
    + destruct (is_exn "SystemExit" e); [reflexivity|].
      apply IH; assumption.
  - reflexivity.
Qed.

(** X20: [interact] ends on every finite input: its loop reaches the
    [break] within one turn more than there are lines to read, and
    allowing it more turns does not change what it does. *)
Theorem interact_terminates (banner : option string) (st : S)
        (c : console) :
  (exists r, interact self format_exc banner st c = Some r) /\
  (forall fuel,
      length (stdin c) < fuel ->
      interact_loop self format_exc fuel st c =
      interact self format_exc None st c).
Proof.
  split.
  - unfold interact. apply interact_loop_ends. lia.
  - intros fuel Hf. unfold interact. apply interact_loop_fuel; lia.
Qed.

(** What one command adds to standard output and to standard error,
    for an [eval] that computes [f]. *)
Lemma interact_loop_transcript
      (f : string -> outcome (option string)) (st : S)
      (inputs : list string) :
  (forall st l, eval self st l = (f l, st)) ->
  Forall (fun l => endswith_char l "\" = false /\
                   forall e, f l = Raised e ->
                             is_exn "SystemExit" e = false) inputs ->
  forall c,
    stdin c = inputs ->
    interact_loop self format_exc (Datatypes.S (length inputs)) st c =
    Some (st,
          {| stdin := [];
             stdout :=
               stdout c ++
               flat_map (fun l => primary_prompt_string self ::
                                  match f l with
                                  | Returned (Some response) => [response]
                                  | _ => []
                                  end) inputs ++
               [primary_prompt_string self];
             stderr :=
               stderr c ++
               flat_map (fun l => match f l with
                                  | Raised e => [format_exc e]
                                  | Returned _ => []
                                  end) inputs |}).
Proof.
  intros Hev H. induction H as [|l inputs [Hl He] _ IH]; intros c Hin.
  - cbn [interact_loop length].
    rewrite (read_empty c Hin).
    cbn [is_exn SystemExit flat_map app]. simpl String.eqb.
    cbn iota. now rewrite app_nil_r.
  - cbn [length]. remember (Datatypes.S (length inputs)) as n.
    cbn [interact_loop].
    rewrite (read_single_line c Hin Hl).
    rewrite Hev. cbn [flat_map].
    destruct (f l) as [[r|]|e] eqn:F; subst n.
    + unfold output, write_stdout. cbn [stdin stdout stderr].
      rewrite IH by reflexivity. cbn [stdin stdout stderr].
      rewrite <- !app_assoc. reflexivity.
    + rewrite IH by reflexivity. cbn [stdin stdout stderr].
      rewrite <- !app_assoc. reflexivity.
    + rewrite (He e eq_refl).
      unfold error, write_stderr. cbn [stdin stdout stderr].
      rewrite IH by reflexivity. cbn [stdin stdout stderr].
      rewrite <- !app_assoc. reflexivity.
Qed.

(** X21: the transcript of [interact].  When [eval] computes a function
    of the command that does not raise [SystemExit] and no line typed
    ends in a backslash, [interact] reads every line; standard output
    receives, for each line, the primary prompt and then the response if
    there is one, and a last prompt at the end of the input; standard
    error receives the traceback of each command that raised. *)
Theorem interact_transcript (f : string -> outcome (option string))
        (st : S) (c : console) :
  (forall st l, eval self st l = (f l, st)) ->
  Forall (fun l => endswith_char l "\" = false /\
                   forall e, f l = Raised e ->
                             is_exn "SystemExit" e = false) (stdin c) ->
  interact self format_exc None st c =
  Some (st,
        {| stdin := [];
           stdout :=
             stdout c ++
             flat_map (fun l => primary_prompt_string self ::
                                match f l with
                                | Returned (Some response) => [response]
                                | _ => []
                                end) (stdin c) ++
             [primary_prompt_string self];
           stderr :=
             stderr c ++
             flat_map (fun l => match f l with
                                | Raised e => [format_exc e]
                                | Returned _ => []
                                end) (stdin c) |}).
Proof.
  intros Hev H. unfold interact.
  now apply interact_loop_transcript.
Qed.

End CliInteract.

Lemma interact_terminates_witness :
  Cli.interact_loop (Cli.base []) (fun _ => "Traceback"%string) 7 tt
    {| Cli.stdin := ["ls"; "pwd"]; Cli.stdout := []; Cli.stderr := [] |} =
  Cli.interact (Cli.base []) (fun _ => "Traceback"%string) None tt
    {| Cli.stdin := ["ls"; "pwd"]; Cli.stdout := []; Cli.stderr := [] |}.
Proof.
  apply (proj2 (interact_terminates
                  (Cli.base []) (fun _ => "Traceback"%string) None tt
                  {| Cli.stdin := ["ls"; "pwd"];
                     Cli.stdout := []; Cli.stderr := [] |})).
  simpl. lia.
Defined.

Lemma interact_transcript_witness :
  Cli.interact (Cli.base []) (fun _ => "Traceback"%string) None tt
    {| Cli.stdin := ["ls"; "pwd"]; Cli.stdout := []; Cli.stderr := [] |} =
  Some (tt,
        {| Cli.stdin := [];
           Cli.stdout := ["$ "; "$ "; "$ "];
           Cli.stderr := ["Traceback"; "Traceback"] |}).
Proof.
  apply (@interact_transcript
           unit (Cli.base []) (fun _ => "Traceback"%string)
           (fun _ => Raised Cli.NotImplementedError) tt
           {| Cli.stdin := ["ls"; "pwd"];
              Cli.stdout := []; Cli.stderr := [] |}).
  - reflexivity.
  - repeat constructor; intros e H; injection H as <-; reflexivity.
Defined.

(* ================================================================= *)
(** ** [Shell.rewrite] and [Shell.complete] *)

Section ShellProps.

Import Str.

Lemma split_nonspace_not_nil (c : ascii) (s : string) :
  is_space c = false -> split (String c s) <> [].
Proof.
  intros H. cbn [split]. rewrite H.
  destruct s as [|d s]; [discriminate|].
  destruct (is_space d); [discriminate|].
  destruct (split (String d s)); discriminate.
Qed.

Lemma split_space (sp : ascii) (s : string) :
  is_space sp = true -> split (String sp s) = split s.
Proof. intros H. cbn [split]. now rewrite H. Qed.

Lemma split_nonspace (c : ascii) (s : string) :
  is_space c = false ->
  split (String c s) =
  match s with
  | EmptyString => [String c EmptyString]
  | String d _ =>
      if is_space d then String c EmptyString :: split s
      else match split s with
           | w :: ws => String c w :: ws
           | [] => [String c EmptyString]
           end
  end.
Proof. intros H. cbn [split]. now rewrite H. Qed.

Lemma split_app_space (sp : ascii) (b : string) :
  is_space sp = true ->
  forall a, split (a ++ String sp b) = split a ++ split b.
Proof.
  intros Hsp. induction a as [|c a IH].
  - cbn [String.append app]. now rewrite split_space.
  - cbn [String.append].
    destruct (is_space c) eqn:Hc.
    + now rewrite !split_space.
    + rewrite !split_nonspace by exact Hc.
      destruct a as [|d a].
      * cbn [String.append]. rewrite Hsp, split_space by exact Hsp.
        reflexivity.
      * cbn [String.append] in *.
        destruct (is_space d) eqn:Hd.
        -- now rewrite IH.
        -- rewrite IH.
           pose proof (@split_nonspace_not_nil d a Hd) as N.
           destruct (split (String d a)); [contradiction|reflexivity].
Qed.

Lemma split_words (s : string) : forallb is_word (split s) = true.
Proof.
  induction s as [|c s IH]; [reflexivity|].
  cbn [split]. destruct (is_space c) eqn:Hc; [exact IH|].
  assert (W : forall w, no_space w = true -> is_word (String c w) = true).
  { intros w Hw. unfold is_word. cbn [truthy no_space].
    now rewrite Hc, Hw. }
  destruct s as [|d s].
  - cbn [forallb]. now rewrite W.
  - destruct (is_space d) eqn:Hd.
    + cbn [forallb]. now rewrite W, IH.
    + destruct (split (String d s)) as [|w ws]; cbn [forallb] in *.
      * now rewrite W.
      * apply andb_true_iff in IH as [Hw Hws].
        unfold is_word in Hw. apply andb_true_iff in Hw as [_ Hw].
        now rewrite (W w Hw), Hws.
Qed.

Lemma split_word_app (w : string) :
  is_word w = true ->
  forall s,
    (s = ""%string \/ exists sp s', s = String sp s' /\ is_space sp = true) ->
    split (w ++ s) = w :: split s.
Proof.
  unfold is_word. intros H. apply andb_true_iff in H as [Ht Hn].
  induction w as [|c w IH]; [discriminate|]. clear Ht.
  cbn [no_space] in Hn. apply andb_true_iff in Hn as [Hc Hn].
  apply negb_true_iff in Hc.
  intros s Hs. cbn [String.append split]. rewrite Hc.
  destruct w as [|d w].
  - cbn [String.append].
    destruct Hs as [->|(sp & s' & -> & Hsp)]; [reflexivity|].
    now rewrite Hsp.
  - cbn [String.append] in *.
    pose proof Hn as Hn'. cbn [no_space] in Hn'.
    apply andb_true_iff in Hn' as [Hd _]. apply negb_true_iff in Hd.
    rewrite Hd. now rewrite (IH eq_refl Hn s Hs).
Qed.

Lemma join_cons (sep w : string) (l : list string) :
  l <> [] -> join sep (w :: l) = (w ++ sep ++ join sep l)%string.
Proof. destruct l; [contradiction|reflexivity]. Qed.

Lemma append_nil_r (s : string) : (s ++ "")%string = s.
Proof. induction s; simpl; congruence. Qed.

Lemma split_join_words (l : list string) :
  forallb is_word l = true -> split (join " " l) = l.
Proof.
  induction l as [|w l IH]; [reflexivity|].
  cbn [forallb]. intros H. apply andb_true_iff in H as [Hw Hl].
  destruct l as [|w' l].
  - unfold join. cbn [String.concat]. rewrite <- (append_nil_r w) at 1.
    rewrite split_word_app; [reflexivity|exact Hw|now left].
  - rewrite join_cons by discriminate.
    rewrite split_word_app; [|exact Hw|].
    + cbn [String.append]. rewrite split_space by reflexivity.
      now rewrite IH.
    + right. eexists. eexists. split; reflexivity.
Qed.

Lemma join_app (sep : string) (l1 l2 : list string) :
  l1 <> [] -> l2 <> [] ->
  join sep (l1 ++ l2) = (join sep l1 ++ sep ++ join sep l2)%string.
Proof.
  intros H1 H2. induction l1 as [|w l1 IH]; [contradiction|].
  destruct l1 as [|w' l1].
  - cbn [app]. now rewrite join_cons.
  - cbn [app] in *.
    change (join sep (w :: w' :: l1 ++ l2))
      with (w ++ sep ++ join sep (w' :: l1 ++ l2))%string.
    change (join sep (w :: w' :: l1))
      with (w ++ sep ++ join sep (w' :: l1))%string.
    rewrite IH by discriminate. now rewrite !append_assoc.
Qed.

Context (aliases environ : dict).

(** X22: [rewrite] works word by word: the rewriting of two texts put
    side by side with a space between them, each holding at least one
    word, is their rewritings with a space between them. *)
Theorem rewrite_compositional (a b : string) :
  split a <> [] -> split b <> [] ->
  Shell.rewrite aliases environ (a ++ " " ++ b) =
  (Shell.rewrite aliases environ a ++ " " ++
   Shell.rewrite aliases environ b)%string.
Proof.
  intros Ha Hb. unfold Shell.rewrite.
  cbn [String.append]. rewrite (@split_app_space " " b eq_refl a).
  rewrite map_app. apply join_app.
  - destruct (split a); [contradiction|discriminate].
  - destruct (split b); [contradiction|discriminate].
Qed.

(** X23: when no word of the line is an alias and none begins with [$],
    [rewrite] returns the words of the line separated by single spaces,
    and rewriting that text again gives it back. *)
Theorem rewrite_plain_line (line : string) :
  Forall (fun w => lookup aliases w = None /\ startswith w "$" = false)
         (split line) ->
  Shell.rewrite aliases environ line = join " " (split line) /\
  Shell.rewrite aliases environ (Shell.rewrite aliases environ line) =
  Shell.rewrite aliases environ line.
Proof.
  intros H.
  assert (E : map (Shell.rewrite_token aliases environ) (split line) =
              split line).
  { induction H as [|w ws [Ha Hd] _ IH]; [reflexivity|].
    cbn [map]. unfold Shell.rewrite_token at 1. now rewrite Ha, Hd, IH. }
  assert (R : Shell.rewrite aliases environ line = join " " (split line)).
  { unfold Shell.rewrite. now rewrite E. }
  split; [exact R|].
  rewrite R at 1. unfold Shell.rewrite at 1.
  rewrite (split_join_words _ (split_words line)). rewrite E.
  now rewrite R.
Qed.

Context (check_output : string -> outcome string).

Lemma collect_filter (head tail : string) (filenames : list string) :
  Shell.collect head tail filenames =
  map (PosixPath.join head)
      (filter (fun f => startswith f tail) filenames).
Proof.
  induction filenames as [|f fs IH]; [reflexivity|].
  cbn [Shell.collect filter]. destruct (startswith f tail); cbn [map];
    now rewrite IH.
Qed.

Lemma getitem_In {A} (l : list A) (i : Z) (a : A) :
  getitem l i = Returned a -> In a l.
Proof.
  unfold getitem. destruct (_ <? 0)%Z; [discriminate|].
  destruct (nth_error l _) eqn:E; [|discriminate].
  intros H. injection H as <-. eapply nth_error_In; eassumption.
Qed.

(** X24: [Shell.complete].  When the [ls] command fails its error is
    raised.  When it succeeds [complete] does not raise: a completion it
    returns is the directory part of the text joined with a word of the
    output of [ls] that starts with the name part of the text, and from
    the number of such words on the state gives [None]. *)
Theorem shell_complete_matches (text : string) (state : Z) :
  let head := fst (PosixPath.split text) in
  let tail := snd (PosixPath.split text) in
  (forall e, check_output ("ls " ++ head) = Raised e ->
             Shell.complete check_output text state = Raised e) /\
  (forall ls, check_output ("ls " ++ head) = Returned ls ->
     (exists r, Shell.complete check_output text state = Returned r) /\
     (forall m, Shell.complete check_output text state = Returned (Some m) ->
                exists f, In f (split ls) /\ startswith f tail = true /\
                          m = PosixPath.join head f) /\
     ((Z.of_nat (length (filter (fun f => startswith f tail) (split ls)))
       <= state)%Z ->
      Shell.complete check_output text state = Returned None)).
Proof.
  unfold Shell.complete.
  destruct (PosixPath.split text) as [head tail]. cbn [fst snd].
  split.
  - intros e H. now rewrite H.
  - intros ls H. rewrite H. cbn [bind]. rewrite collect_filter.
    split; [|split].
    + destruct (getitem _ state) as [m|e] eqn:G; [eauto|].
      unfold getitem in G.
      destruct (_ <? 0)%Z; [injection G as <-; simpl; eauto|].
      destruct (nth_error _ _); [discriminate|].
      injection G as <-. simpl. eauto.
    + intros m Hm.
      destruct (getitem _ state) as [m'|e] eqn:G.
      * injection Hm as <-. apply getitem_In in G.
        apply in_map_iff in G as (f & <- & Hf).
        apply filter_In in Hf as [Hin Hf]. eauto.
      * destruct (is_IndexError e); discriminate.
    + intros Hs. rewrite getitem_beyond; [reflexivity|].
      now rewrite length_map.
Qed.

End ShellProps.

Lemma rewrite_compositional_witness :
  Shell.rewrite [("ll", "ls -l")] [("HOME", "/home/user")] "ll $HOME" =
  "ls -l /home/user"%string.
Proof.
  exact (@rewrite_compositional
           [("ll", "ls -l")] [("HOME", "/home/user")] "ll" "$HOME"
           ltac:(discriminate) ltac:(discriminate)).
Defined.

Lemma rewrite_plain_line_witness :
  Shell.rewrite [("ll", "ls -l")] [] "  cat   notes.txt " =
  "cat notes.txt"%string.
Proof.
  apply (proj1 (@rewrite_plain_line
                  [("ll", "ls -l")] [] "  cat   notes.txt "
                  ltac:(repeat constructor))).
Defined.

Lemma shell_complete_matches_witness :
  Shell.complete (fun _ => Returned "a.c ab.c b.c"%string) "src/a" 2 =
  Returned None.
Proof.
  apply (proj2 (proj2 (proj2 (@shell_complete_matches
                                (fun _ => Returned "a.c ab.c b.c"%string)
                                "src/a" 2)
                             "a.c ab.c b.c"%string eq_refl))).
  simpl. lia.
Defined.

(* ================================================================= *)
(** ** Completing inside a directory *)

Section DirectoryWords.

Import Completer.

Lemma contains_sep_cons (c : ascii) (s : string) :
  contains (String c s) "/" = false ->
  Ascii.eqb c PosixPath.sep = false /\ contains s "/" = false.
Proof.
  cbn [contains startswith]. rewrite andb_true_r.
  intros H. apply orb_false_iff in H. exact H.
Qed.

Lemma cut_at_sep (t : string) :
  contains t "/" = false ->
  forall d,
    PosixPath.cut_after_last_sep (d ++ "/" ++ t) = ((d ++ "/")%string, t).
Proof.
  intros Ht. induction d as [|c d IH].
  - cbn [String.append PosixPath.cut_after_last_sep].
    rewrite (cut_no_sep t Ht). reflexivity.
  - cbn [String.append PosixPath.cut_after_last_sep].
    cbn [String.append] in IH. rewrite IH.
    destruct d; reflexivity.
Qed.

Lemma rstrip_sep_snoc (d : string) :
  contains d "/" = false -> PosixPath.rstrip_sep (d ++ "/") = d.
Proof.
  induction d as [|c d IH]; intros H; [reflexivity|].
  apply contains_sep_cons in H as [Hc Hd].
  cbn [String.append PosixPath.rstrip_sep].
  now rewrite (IH Hd), Hc.
Qed.

Lemma ends_with_sep_none (d : string) :
  contains d "/" = false -> PosixPath.ends_with_sep d = false.
Proof.
  induction d as [|c d IH]; intros H; [reflexivity|].
  apply contains_sep_cons in H as [Hc Hd].
  cbn [PosixPath.ends_with_sep]. destruct d; [exact Hc|exact (IH Hd)].
Qed.

Lemma split_directory_word (d t : string) :
  truthy d = true ->
  contains d "/" = false ->
  contains t "/" = false ->
  PosixPath.split (d ++ "/" ++ t) = (d, t).
Proof.
  intros Hd Hs Ht. unfold PosixPath.split.
  rewrite (cut_at_sep t Ht d).
  destruct d as [|c d]; [discriminate|].
  pose proof (contains_sep_cons _ _ Hs) as [Hc _].
  cbn [String.append truthy PosixPath.all_sep]. rewrite Hc.
  cbn [andb negb].
  f_equal. exact (rstrip_sep_snoc _ Hs).
Qed.

Lemma gen_filename_completions_incl (word : string)
      (filenames : list string) (f : string) :
  In f (gen_filename_completions word filenames) -> In f filenames.
Proof.
  rewrite gen_filename_completions_phases.
  destruct (prefix_phase_filter word filenames) as (test & E & _ & _).
  rewrite E. destruct (filter test filenames) as [|y ys] eqn:F.
  - unfold Spec.substring_phase. intros H. now apply filter_In in H.
  - rewrite <- F. intros H. now apply filter_In in H.
Qed.

(** X25: completing inside a directory.  For a word [d/t], with [d] a
    non-empty name and neither [d] nor [t] holding a [/], the directory
    [d] is listed and every entry the filename generator selects for [t]
    is yielded with [d/] before it; the candidates of the extensions
    follow. *)
Theorem gen_matches_directory_word (os : system) (self : t)
        (d t : string) (filenames : list string) :
  truthy d = true ->
  startswith d "$" = false ->
  contains d "/" = false ->
  contains t "/" = false ->
  listdir os d = Returned filenames ->
  Forall (fun f => startswith f "/" = false) filenames ->
  gen_matches os self (d ++ "/" ++ t) =
  chain (yield_all (map (fun m => (d ++ "/" ++ m)%string)
                        (gen_filename_completions t filenames)))
        (for_list (extensions self)
                  (fun extension => extension (d ++ "/" ++ t)%string)).
Proof.
  intros Hd Hdollar Hs Ht Hl Hf. unfold gen_matches.
  assert (Hw : startswith (d ++ "/" ++ t) "$" = false).
  { destruct d; [discriminate|exact Hdollar]. }
  rewrite Hw, (split_directory_word d t Hd Hs Ht), Hd, Hl.
  f_equal.
  - rewrite for_list_yield. f_equal. apply map_ext_in.
    intros m Hm. apply gen_filename_completions_incl in Hm.
    rewrite Forall_forall in Hf. unfold PosixPath.join.
    now rewrite (Hf m Hm), Hd, (ends_with_sep_none d Hs).
  - apply for_list_ext. intros ext. apply for_each_reyield.
Qed.

End DirectoryWords.

Lemma gen_matches_directory_word_witness :
  Completer.gen_matches
    {| Completer.listdir d :=
         if String.eqb d "src" then Returned ["main.c"; "util.c"; ".git"]
         else Raised OSError;
       Completer.isdir _ := false;
       Completer.environ := [] |}
    Example.completer "src/" =
  yield_all ["src/main.c"; "src/util.c"].
Proof.
  apply (@gen_matches_directory_word
           {| Completer.listdir d :=
                if String.eqb d "src"
                then Returned ["main.c"; "util.c"; ".git"]
                else Raised OSError;
              Completer.isdir _ := false;
              Completer.environ := [] |}
           Example.completer "src" "" ["main.c"; "util.c"; ".git"]);
    try reflexivity.
  repeat constructor.
Defined.

Lemma gen_filename_completions_nil_iff_witness :
  Completer.gen_filename_completions "zz" ["apple"; "banana"] = [].
Proof.
  apply (proj2 (gen_filename_completions_nil_iff "zz" ["apple"; "banana"])).
  intros f [<-|[<-|[]]]; reflexivity.
Defined.
